(** * Author enrichment of search hits: mysite/search_engine/helps.py

    A shallow embedding of [helps.py]: the enrichment merge
    ([add_additional_data_to_record]), the remote caller
    ([BookCoroutineService.call_service]), the per-record task
    ([retrieve_author_details]), the scheduler ([schedule_services],
    [call_author_many]) and the batch runner
    ([ElasticSearchBookService.run_query_list]).

    Python objects are modelled by the inductive types [value] (JSON-like
    data, dicts as [gmap string value]) and [exn] (exception instances with
    their class, [args], [__cause__], [__context__] and attributes).  Code
    that can raise lives in the monad [M], a writer of observable [event]s
    over an error monad of Python exceptions. *)

From Stdlib Require Import ZArith String Permutation Lia.
From stdpp Require Import base option functions gmap strings countable list.

Open Scope Z_scope.
Open Scope string_scope.
Open Scope list_scope.

Set Warnings "-register-all".

(** ** Python values *)

Module Py.

(** JSON-like Python data: what [response.json()] can return and what an
    Elasticsearch hit is made of. *)
Inductive value : Type :=
  | VNone
  | VBool (b : bool)
  | VInt (z : Z)
  | VStr (s : string)
  | VList (l : list value)
  | VDict (d : gmap string value).

(** Exception classes that the module names or that the interpreter raises
    on the paths modelled here.  [ClsBaseOnly] stands for the classes that
    derive from [BaseException] but not from [Exception]
    (KeyboardInterrupt, SystemExit, ...); [ClsSub name base] is the class
    [name] that derives from the class [base], as aiohttp's
    [ClientProxyConnectionError] and [ClientConnectorSSLError] derive from
    [ClientConnectorError]; [ClsOther] is any further subclass of
    [Exception] that derives from none of the classes listed before it. *)
Inductive exn_class : Type :=
  | ClsException
  | ClsTypeError
  | ClsKeyError
  | ClsIndexError
  | ClsAttributeError
  | ClsValueError
  | ClsConnectionError
  | ClsFetchError
  | ClsClientConnectorError
  | ClsClientResponseError
  | ClsHTTPNotFound
  | ClsBaseOnly (name : string)
  | ClsOther (name : string)
  | ClsSub (name : string) (base : exn_class).

#[global] Instance exn_class_eq_dec : EqDecision exn_class.
Proof. solve_decision. Defined.

(** An exception instance.  [args] is the constructor's positional
    arguments, [cause] is [__cause__] (set only by [raise ... from]),
    [context] is [__context__] (set implicitly when raising inside an
    [except] block), [attrs] holds attributes assigned by [__init__]. *)
Inductive exn : Type :=
  | MkExn (cls : exn_class) (args : list pyobj)
          (cause : option exn) (context : option exn)
          (attrs : list (string * pyobj))
with pyobj : Type :=
  | OVal (v : value)
  | OExn (e : exn).

Definition exn_cls (e : exn) : exn_class :=
  match e with MkExn c _ _ _ _ => c end.
Definition exn_args (e : exn) : list pyobj :=
  match e with MkExn _ a _ _ _ => a end.
Definition exn_cause (e : exn) : option exn :=
  match e with MkExn _ _ c _ _ => c end.
Definition exn_context (e : exn) : option exn :=
  match e with MkExn _ _ _ c _ => c end.
Definition exn_attrs (e : exn) : list (string * pyobj) :=
  match e with MkExn _ _ _ _ a => a end.

(** [cls.__name__] *)
Definition class_name (c : exn_class) : string :=
  match c with
  | ClsException => "Exception"
  | ClsTypeError => "TypeError"
  | ClsKeyError => "KeyError"
  | ClsIndexError => "IndexError"
  | ClsAttributeError => "AttributeError"
  | ClsValueError => "ValueError"
  | ClsConnectionError => "ConnectionError"
  | ClsFetchError => "FetchError"
  | ClsClientConnectorError => "ClientConnectorError"
  | ClsClientResponseError => "ClientResponseError"
  | ClsHTTPNotFound => "HTTPNotFound"
  | ClsBaseOnly n => n
  | ClsOther n => n
  | ClsSub n _ => n
  end.

(** [issubclass(c, Exception)]: what a clause [except Exception] catches. *)
Fixpoint is_Exception (c : exn_class) : bool :=
  match c with
  | ClsBaseOnly _ => false
  | ClsSub _ base => is_Exception base
  | _ => true
  end.

(** [issubclass(c, c')]: [c] is [c'] or derives from it.  Every class
    but the [ClsBaseOnly] ones derives from [Exception]. *)
Fixpoint issubclass (c c' : exn_class) : bool :=
  match c' with
  | ClsException => is_Exception c
  | _ =>
      bool_decide (c = c') ||
      match c with
      | ClsSub _ base => issubclass base c'
      | _ => false
      end
  end.

(** The classes of the error taxonomy's connection failures: the builtin
    [ConnectionError], aiohttp's [ClientConnectorError] and what derives
    from them. *)
Definition is_connection_class (c : exn_class) : bool :=
  issubclass c ClsConnectionError || issubclass c ClsClientConnectorError.

(** Truth value of an object, as [not x] and [x and y] test it. *)
Definition truthy (v : value) : bool :=
  match v with
  | VNone => false
  | VBool b => b
  | VInt z => negb (Z.eqb z 0)
  | VStr s => negb (String.eqb s "")
  | VList l => match l with [] => false | _ => true end
  | VDict d => negb (Nat.eqb (size d) 0)
  end.

Definition truthy_obj (o : pyobj) : bool :=
  match o with
  | OVal v => truthy v
  | OExn _ => true
  end.

(** An error raised by the interpreter itself, outside any [except]
    block.  The message texts differ between CPython versions; no
    statement below depends on them. *)
Definition interp_error (c : exn_class) (msg : string) : exn :=
  MkExn c [OVal (VStr msg)] None None [].

(** [KeyError(key)] *)
Definition key_error (k : string) : exn :=
  MkExn ClsKeyError [OVal (VStr k)] None None [].

(** [obj[k]] for a string key [k]: a dict is looked up, every other JSON
    value rejects a string subscript. *)
Definition getitem (obj : value) (k : string) : exn + value :=
  match obj with
  | VDict d =>
      match d !! k with
      | Some v => inr v
      | None => inl (key_error k)
      end
  | _ => inl (interp_error ClsTypeError "object is not subscriptable by str")
  end.

(** [obj[k] = v] for a string key [k], giving the object after the
    assignment. *)
Definition setitem (obj : value) (k : string) (v : value) : exn + value :=
  match obj with
  | VDict d => inr (VDict (<[k := v]> d))
  | _ => inl (interp_error ClsTypeError "object does not support item assignment")
  end.

End Py.
Export Py.

(** ** Module-level constants and types of helps.py *)

Definition MAX_RECORDS : Z := 10.
Definition DEFAULT_CONCUR_REQ : Z := 5.
Definition MAX_CONCUR_REQ : Z := 1000.
Definition AWS_AUTHOR_API : string :=
  "https://ie4djxzt8j.execute-api.eu-west-1.amazonaws.com/coding".

(** [HTTPStatus = Enum('Status', 'ok not_found error')] *)
Module HTTPStatus.
Inductive Status : Type := ok | not_found | error.

#[global] Instance Status_eq_dec : EqDecision Status.
Proof. solve_decision. Defined.

Definition to_nat (s : Status) : nat :=
  match s with ok => 0%nat | not_found => 1%nat | error => 2%nat end.
Definition of_nat (n : nat) : Status :=
  match n with 0%nat => ok | 1%nat => not_found | _ => error end.

#[global] Instance Status_countable : Countable Status.
Proof. apply (inj_countable' to_nat of_nat). by intros []. Defined.
End HTTPStatus.

(** Identity of a Python object held in the store. *)
Definition oid : Type := nat.

(** The store of record objects: the dict behind each [book_details]
    reference.  Records are shared between the caller's list, the tasks
    and the executor jobs, so they are addressed through the store. *)
Definition heap : Type := oid → value.

(** [Result = namedtuple('Result', 'status data')]; [data] is the
    [book_details] object itself. *)
Record Result : Type := MkResult {
  status : HTTPStatus.Status;
  data : oid
}.

(** [collections.Counter]: a dict in which an absent key reads 0. *)
Definition Counter : Type := gmap HTTPStatus.Status nat.

Definition counter_get (c : Counter) (k : HTTPStatus.Status) : nat :=
  default 0%nat (c !! k).

(** [counter[k] += 1] *)
Definition counter_incr (c : Counter) (k : HTTPStatus.Status) : Counter :=
  <[k := S (counter_get c k)]> c.

(** [tally.ok + tally.not_found + tally.error] *)
Definition counter_total (c : Counter) : nat :=
  (counter_get c HTTPStatus.ok + counter_get c HTTPStatus.not_found
   + counter_get c HTTPStatus.error)%nat.

(** [FetchError(id, error)]: [__init__] stores both arguments as
    attributes; [BaseException.__new__] keeps them in [args].  [cause] is
    [Some c] for [raise FetchError(..) from c]. *)
Definition FetchError (id error : pyobj) (cause context : option exn) : exn :=
  MkExn ClsFetchError [id; error] cause context [("id", id); ("error", error)].

(** ** Observable effects *)

(** A call [loop.run_in_executor(None, add_additional_data_to_record,
    data, qry, book_details)]: the arguments of the submitted call. *)
Record job : Type := MkJob {
  job_data : value;
  job_qry : string;
  job_target : oid
}.

Inductive event : Type :=
  | EvPost (url : string) (payload : value)
      (* [ClientSession(..).post(url, json=payload)] is issued *)
  | EvJson
      (* [response.json()] is awaited: the body is read and parsed *)
  | EvSubmit (j : job)
      (* a merge is handed to the loop's default executor *)
  | EvSemaphore (capacity : Z)
      (* [asyncio.Semaphore(capacity)] is created *)
  | EvProgress (total : nat)
      (* the iterator is wrapped in [tqdm.tqdm(.., total=total)] *)
  | EvDiag (id : pyobj) (error_msg : pyobj).
      (* the 'Error for {}: {}' line is logged *)

(** The events of a task: the request, the reading of the body and the
    submission of the merge. *)
Definition is_task_event (ev : event) : bool :=
  match ev with
  | EvPost _ _ | EvJson | EvSubmit _ => true
  | _ => false
  end.

(** The events of a batch that [run_query_list] starts, were the
    scheduler invoked with [concur_req = MAX_CONCUR_REQ] and a truthy
    [verbose]: every semaphore has capacity [MAX_CONCUR_REQ] and no
    progress observer is installed. *)
Definition is_batch_event (ev : event) : bool :=
  match ev with
  | EvSemaphore capacity => Z.eqb capacity MAX_CONCUR_REQ
  | EvProgress _ => false
  | _ => true
  end.

(** ** The monad of effectful code: a trace of events and how the code
    ends *)

(** A coroutine or call raises, returns, or never completes (it waits for
    something that never happens). *)
Inductive completion (A : Type) : Type :=
  | Raised (e : exn)
  | Returned (a : A)
  | Blocked.
Arguments Raised {A} e.
Arguments Returned {A} a.
Arguments Blocked {A}.

Definition M (A : Type) : Type := list event * completion A.

Definition ret {A} (a : A) : M A := ([], Returned a).
Definition raise {A} (e : exn) : M A := ([], Raised e).
Definition block {A} : M A := ([], Blocked).
Definition tell (ev : event) : M unit := ([ev], Returned tt).
Definition lift {A} (r : exn + A) : M A :=
  match r with
  | inl e => raise e
  | inr a => ret a
  end.

Definition bind {A B} (m : M A) (k : A → M B) : M B :=
  match m with
  | (t, Raised e) => (t, Raised e)
  | (t, Blocked) => (t, Blocked)
  | (t, Returned a) => let '(t', r) := k a in (t ++ t', r)
  end.

#[global] Instance M_ret : MRet M := @ret.
#[global] Instance M_bind : MBind M := λ A B k m, bind m k.

(** [try: body / except <clauses>: .. / else: ..].  [handler e] is [None]
    when no clause matches [e], which then propagates; the [else] suite
    runs after a body that did not raise and is not protected by the
    clauses. *)
Definition try_except_else {A B} (body : M A)
    (handler : exn → option (M B)) (orelse : A → M B) : M B :=
  match body with
  | (t, Raised e) =>
      match handler e with
      | Some h => let '(t', r) := h in (t ++ t', r)
      | None => (t, Raised e)
      end
  | (t, Blocked) => (t, Blocked)
  | (t, Returned a) => let '(t', r) := orelse a in (t ++ t', r)
  end.

Definition trace {A} (m : M A) : list event := fst m.
Definition outcome {A} (m : M A) : completion A := snd m.

(** [exc.name] for an attribute set by the exception's constructor; the
    lookup runs inside the [except] block that caught [ctx]. *)
Definition getattr (e : exn) (name : string) (ctx : option exn) : exn + pyobj :=
  match list_find (λ kv, String.eqb (fst kv) name = true) (exn_attrs e) with
  | Some (_, kv) => inr (snd kv)
  | None =>
      inl (MkExn ClsAttributeError
             [OVal (VStr ("object has no attribute '" ++ name ++ "'")%string)]
             None ctx [])
  end.

(** ** Enricher *)

(** [add_additional_data_to_record(data, qry, book_details)]: the two
    assignments, on the contents of the record; the result is the record
    after the call, or the exception that left it as it was.  In each
    assignment the right-hand side is evaluated first. *)
Definition add_additional_data_to_record
    (data : value) (qry : string) (book_details : value) : exn + value :=
  match getitem data "author" with
  | inl e => inl e
  | inr author =>
      match getitem book_details "_source" with
      | inl e => inl e
      | inr source =>
          match setitem source "author" author with
          | inl e => inl e
          | inr source1 =>
              match setitem source1 "query" (VStr qry) with
              | inl e => inl e
              | inr source2 => setitem book_details "_source" source2
              end
          end
      end
  end.

(** ** RemoteCaller *)

(** What the HTTP transport hands back for one request.  [json] is the
    outcome of awaiting [response.json()], should the caller do so. *)
Record response : Type := MkResponse {
  resp_status : Z;
  resp_reason : value;
  resp_headers : value;
  resp_json : exn + value
}.

Inductive post_outcome : Type :=
  | PostRaises (e : exn)
  | PostReturns (r : response).

(** One [ClientSession(..).post(url, json=payload)]. *)
Definition transport : Type := string → value → post_outcome.

(** [aiohttp.ClientConnectorError]; its [strerror] property is the text of
    the wrapped [OSError], or [None] when that error has none.  Of the
    instance only [strerror] is read by the module. *)
Definition ClientConnectorError (strerror : option string) : exn :=
  MkExn ClsClientConnectorError [] None None
    [("strerror", OVal (from_option VStr VNone strerror))].

(** The call [aiohttp.ClientResponseError(code=.., message=..,
    headers=..)]: the exception it raises ([inl]) or the instance it
    builds ([inr]).  The library is aiohttp as from release 2.1, all of
    3.x included, the releases whose [ClientConnectorError] wraps an
    [OSError]: there the constructor is
    [__init__(self, request_info, history, *, code, message, headers)],
    and a call that passes no [request_info] and no [history] raises
    [TypeError] before any instance exists.  (Release 2.0 alone took
    exactly the three keywords of the call.) *)
Definition ClientResponseError (code : Z) (message headers : value)
    : exn + exn :=
  inl (interp_error ClsTypeError
         "__init__() missing 2 required positional arguments: 'request_info' and 'history'").

(** [Exception(x)] raised inside the [except] block that caught [ctx]. *)
Definition Exception (x : pyobj) (ctx : exn) : exn :=
  MkExn ClsException [x] None (Some ctx) [].

(** ["literal" + x], evaluated inside the [except] block that caught
    [ctx]: only a str can be appended to a str. *)
Definition str_add (s : string) (x : pyobj) (ctx : exn) : exn + string :=
  match x with
  | OVal (VStr s') => inr (s ++ s')%string
  | _ =>
      inl (MkExn ClsTypeError [OVal (VStr "can only concatenate str to str")]
             None (Some ctx) [])
  end.

(** [isinstance(e, c)], the test of a clause [except c]: the class of [e]
    is [c] or derives from it. *)
Definition isinstance (e : exn) (c : exn_class) : bool :=
  issubclass (exn_cls e) c.

(** [BookCoroutineService.call_service(base_url, data, method)] over the
    transport [post]. *)
Definition call_service (post : transport)
    (base_url : string) (data : value) (method : string) : M value :=
  let url := base_url in
  response ←
    (if String.eqb method "POST" then
       tell (EvPost url data);;
       match post url data with
       | PostReturns r => ret (Some r)
       | PostRaises ce =>
           if isinstance ce ClsClientConnectorError then
             strerror ← lift (getattr ce "strerror" (Some ce));
             message ← lift (str_add "call author aws service: " strerror ce);
             raise (Exception (OVal (VStr message)) ce)
           else if is_Exception (exn_cls ce) then
             raise (Exception (OExn ce) ce)
           else raise ce
       end
     else ret None);
  match response with
  | None =>
      raise (interp_error ClsAttributeError
               "'NoneType' object has no attribute 'status'")
  | Some r =>
      if negb (Z.eqb (resp_status r) 200) then
        e ← lift (ClientResponseError (resp_status r) (resp_reason r)
                    (resp_headers r));
        raise e
      else
        tell EvJson;;
        lift (resp_json r)
  end.

(** ** Scheduler *)

(** [asyncio.Semaphore(value)]: the constructor rejects a negative value.
    The semaphore object is represented by its capacity. *)
Definition Semaphore (value : Z) : M Z :=
  if Z.ltb value 0 then
    raise (interp_error ClsValueError "Semaphore initial value must be >= 0")
  else
    tell (EvSemaphore value);;
    ret value.

(** Entering [with (yield from semaphore)].  Every request is answered
    (the transport raises or returns), so every slot taken is given back
    and a task waits for ever exactly when the semaphore has no slot at
    all. *)
Definition acquire (semaphore : Z) : M unit :=
  if Z.eqb semaphore 0 then block else ret tt.

(** The [except] clauses of [retrieve_author_details]. *)
Definition retrieve_author_details_except (exc : exn)
    : option (M HTTPStatus.Status) :=
  if isinstance exc ClsHTTPNotFound then Some (ret HTTPStatus.not_found)
  else if is_Exception (exn_cls exc) then
    Some (raise (Exception (OExn exc) exc))
  else None.

(** The request body of [retrieve_author_details]:
    [book_id = book_details['_source']['id']; data = {'book_id': book_id}],
    evaluated before the [try] statement. *)
Definition request_payload (book_details : value) : exn + value :=
  match getitem book_details "_source" with
  | inl e => inl e
  | inr source =>
      match getitem source "id" with
      | inl e => inl e
      | inr book_id => inr (VDict {["book_id" := book_id]})
      end
  end.

(** The [try] statement of [retrieve_author_details] around the suite
    [guarded] of its [with] block, and the [return]. *)
Definition classify_call (book_details : oid) (qry : string)
    (guarded : M value) : M Result :=
  status ←
    try_except_else guarded
      retrieve_author_details_except
      (λ data,
         tell (EvSubmit (MkJob data qry book_details));;
         ret HTTPStatus.ok);
  ret (MkResult status book_details).

(** [BookCoroutineService.retrieve_author_details(book_details, qry,
    semaphore, verbose)], reading the record through the store [h] and
    sending its one request over [post]. *)
Definition retrieve_author_details (post : transport) (h : heap)
    (book_details : oid) (qry : string) (semaphore : Z) (verbose : value)
    : M Result :=
  let base_url := AWS_AUTHOR_API in
  data ← lift (request_payload (h book_details));
  classify_call book_details qry
    (acquire semaphore;;
     call_service post base_url data "POST").

(** [t[0]] on the tuple [t], inside the [except] block that caught
    [ctx]. *)
Definition index0 (t : list pyobj) (ctx : exn) : exn + pyobj :=
  match t with
  | x :: _ => inr x
  | [] =>
      inl (MkExn ClsIndexError [OVal (VStr "tuple index out of range")]
             None (Some ctx) [])
  end.

(** The diagnostic extraction of [schedule_services]:
    [try: error_msg = exc.__cause__.args[0]
     except IndexError: error_msg = exc.__cause__.__class__.__name__] *)
Definition error_msg_of (exc : exn) : exn + pyobj :=
  let attempt :=
    match exn_cause exc with
    | None =>
        inl (MkExn ClsAttributeError
               [OVal (VStr "'NoneType' object has no attribute 'args'")]
               None (Some exc) [])
    | Some cause => index0 (exn_args cause) exc
    end in
  match attempt with
  | inr error_msg => inr error_msg
  | inl e =>
      if isinstance e ClsIndexError then
        inr (OVal (VStr (match exn_cause exc with
                         | Some cause => class_name (exn_cls cause)
                         | None => "NoneType"
                         end)))
      else inl e
  end.

(** The body of [except FetchError as exc:] in [schedule_services]. *)
Definition on_FetchError (verbose : value) (exc : exn) : M HTTPStatus.Status :=
  id ← lift (getattr exc "id" (Some exc));
  error_msg ← lift (error_msg_of exc);
  (if truthy verbose && truthy_obj error_msg
   then tell (EvDiag id error_msg) else ret tt);;
  ret HTTPStatus.error.

(** The [for future in to_do_iter] loop over the futures that arrive. *)
Fixpoint tally_loop (verbose : value) (arrived : list (M Result))
    (counter : Counter) : M Counter :=
  match arrived with
  | [] => ret counter
  | future :: rest =>
      status ←
        try_except_else future
          (λ exc, if isinstance exc ClsFetchError
                  then Some (on_FetchError verbose exc) else None)
          (λ res, ret (status res));
      tally_loop verbose rest (counter_incr counter status)
  end.

Definition completes {A} (m : M A) : bool :=
  match outcome m with
  | Blocked => false
  | _ => true
  end.

(** [BookCoroutineService.schedule_services(records_list, qry,
    next_calling_service, verbose, concur_req)].

    [next_calling_service i] is the i-th coroutine the callable creates.
    [order] is the event loop's completion order of the tasks:
    [asyncio.as_completed] yields the tasks that complete, in that order,
    and never yields one that stays blocked, so the loop waits for ever
    once the completed tasks are consumed and a blocked one remains.

    The trace lists the events of each task where the loop consumes the
    task.  When an exception leaves the loop, the tasks not yet consumed
    are abandoned with the event loop; what they did until then is not
    part of the trace. *)
Definition schedule_services (order : list (M Result) → list (M Result))
    (records_list : list oid) (qry : string)
    (next_calling_service : nat → oid → string → Z → value → M Result)
    (verbose : value) (concur_req : Z) : M Counter :=
  let counter : Counter := ∅ in
  semaphore ← Semaphore concur_req;
  let to_do :=
    imap (λ i item_details,
            next_calling_service i item_details qry semaphore verbose)
         records_list in
  let to_do_iter := order to_do in
  (if negb (truthy verbose)
   then tell (EvProgress (length records_list)) else ret tt);;
  counter ← tally_loop verbose (List.filter completes to_do_iter) counter;
  if forallb completes to_do_iter then ret counter else block.

(** The list [to_do] of [schedule_services]: the coroutines it creates,
    one per record. *)
Definition to_do_of (records_list : list oid) (qry : string)
    (next_calling_service : nat → oid → string → Z → value → M Result)
    (verbose : value) (semaphore : Z) : list (M Result) :=
  imap (λ i item_details,
          next_calling_service i item_details qry semaphore verbose)
       records_list.

(** [BookCoroutineService.call_author_many(records_list, qry, verbose,
    concur_req)]: a fresh loop runs the scheduler with
    [retrieve_author_details]; the tally is dropped.  [post i] answers the
    request of the i-th task. *)
Definition call_author_many (order : list (M Result) → list (M Result))
    (post : nat → transport) (h : heap)
    (records_list : list oid) (qry : string)
    (verbose : value) (concur_req : Z) : M unit :=
  schedule_services order records_list qry
    (λ i, retrieve_author_details (post i) h) verbose concur_req;;
  ret tt.

(** ** The executor *)

(** The executor runs a submitted merge on the record object.  Nothing
    awaits the future that [run_in_executor] returns, so an exception of
    the merge is dropped with it and the record stays as it was. *)
Definition run_job (j : job) (h : heap) : heap :=
  match add_additional_data_to_record (job_data j) (job_qry j) (h (job_target j)) with
  | inr book_details => <[job_target j := book_details]> h
  | inl _ => h
  end.

Definition run_jobs (js : list job) (h : heap) : heap :=
  foldl (λ h j, run_job j h) h js.

(** The merges submitted in a trace, in submission order. *)
Definition jobs_of (t : list event) : list job :=
  omap (λ ev, match ev with EvSubmit j => Some j | _ => None end) t.

(** The merges a future has submitted when it is done. *)
Definition future_jobs (m : M Result) : list job := jobs_of (trace m).

(** ** BatchRunner *)

(** The collaborators of a run: the search backend, the HTTP transport and
    the event loops.
    - [search k qry size] is the k-th search executed:
      [search_instance.query(Q('bool', must=[Q('match', summary=qry)]))
       .sort('_score')[0:size].execute().to_dict()['hits']['hits']], the
      contents of the hit objects it creates, or the exception it raises;
    - [post k i] answers the request of task [i] of batch [k];
    - [order k] is the completion order in the loop of batch [k]. *)
Record World : Type := MkWorld {
  search : nat → string → value → exn + list value;
  post : nat → nat → transport;
  order : nat → list (M Result) → list (M Result)
}.

(** The attributes [__init__] stores; [search_instance] is the [search]
    of the world. *)
Record ElasticSearchBookService : Type := MkService {
  query_list : list string;
  size : value
}.

(** The hit objects of a response enter the store at fresh identities. *)
Fixpoint alloc (h : heap) (next : oid) (hits : list value) : heap :=
  match hits with
  | [] => h
  | v :: hits' => alloc (<[next := v]> h) (S next) hits'
  end.

(** The [for qry in self.query_list] loop of [run_query_list]; [k] counts
    the iterations, [next] is the next fresh identity.  Both
    [response.to_dict()] calls hand out the response's own dictionary, so
    [list_doc] and the appended list hold the same record objects. *)
Fixpoint run_query_list_loop (w : World) (size : value) (k : nat)
    (query_list : list string) (h : heap) (next : oid)
    (result : list (list oid)) : M (list (list oid) * heap) :=
  match query_list with
  | [] => ret (result, h)
  | qry :: rest =>
      hits ← lift (search w k qry size);
      let list_doc := seq next (length hits) in
      let h := alloc h next hits in
      call_author_many (order w k) (post w k) h list_doc qry
        (VInt DEFAULT_CONCUR_REQ) MAX_CONCUR_REQ;;
      run_query_list_loop w size (S k) rest h (next + length hits)%nat
        (result ++ [list_doc])
  end.

(** [ElasticSearchBookService.run_query_list()]: the list of hit lists it
    returns and the store they live in. *)
Definition run_query_list (w : World) (self : ElasticSearchBookService)
    : M (list (list oid) * heap) :=
  run_query_list_loop w (size self) 0 (query_list self) (λ _, VNone) 0%nat [].

(** What a reader of the returned lists sees in store [h]. *)
Definition deref (h : heap) (result : list (list oid)) : list (list value) :=
  (λ ids : list oid, h <$> ids) <$> result.

(** What a returned run of the loop leaves behind, term by term: the
    search of iteration [k] returned [hits]; its hit objects sit in the
    store [hf] at the identities [next, next+1, ..]; the list appended to
    the result names exactly these; and the merges [js1] that the batch
    submitted aim at these objects, at most one at each, and carry the
    term. *)
Inductive batches_ok (w : World) (size : value) (hf : heap)
    : nat → oid → list string → list (list oid) → list job → Prop :=
  | batches_nil k next : batches_ok w size hf k next [] [] []
  | batches_cons k next qry qs hits bs js1 js2 :
      search w k qry size = inr hits →
      (∀ j r, hits !! j = Some r → hf (next + j)%nat = r) →
      Forall (λ j, job_qry j = qry) js1 →
      job_target <$> js1 ⊆+ seq next (length hits) →
      batches_ok w size hf (S k) (next + length hits)%nat qs bs js2 →
      batches_ok w size hf k next (qry :: qs)
        (seq next (length hits) :: bs) (js1 ++ js2).

(** ** The tasks of one batch under the event loop

    The interleaving of the coroutines that [schedule_services] creates,
    as a step relation.  A task runs [retrieve_author_details]: it
    evaluates the request body, enters [with (yield from semaphore)] once
    the semaphore's value is positive (taking one slot), sends its request
    at once, and leaves the [with] block (giving the slot back) when the
    request is answered, whatever the answer. *)
Module EventLoop.

Inductive phase : Type :=
  | Created
      (* the coroutine object exists, nothing of it has run *)
  | Waiting (payload : value)
      (* suspended in [yield from semaphore] *)
  | InFlight (payload : value)
      (* inside the [with] block, [call_service] awaits the answer *)
  | Finished (r : M Result).
      (* returned or raised *)

Inductive sem_event : Type :=
  | Acquire (i : nat)
  | Release (i : nat).

#[global] Instance sem_event_eq_dec : EqDecision sem_event.
Proof. solve_decision. Defined.

Record state : Type := MkState {
  sem_value : Z;              (* [semaphore._value] *)
  tasks : list phase;
  log : list sem_event
}.

Definition is_InFlight (p : phase) : bool :=
  match p with InFlight _ => true | _ => false end.

(** Number of requests in flight. *)
Definition in_flight (ps : list phase) : nat :=
  length (List.filter is_InFlight ps).

(** Occurrences of an event in the log. *)
Definition occurrences (ev : sem_event) (l : list sem_event) : nat :=
  length (List.filter (λ ev', bool_decide (ev' = ev)) l).

Section Batch.
Variable post : nat → transport.
Variable h : heap.
Variable records_list : list oid.
Variable qry : string.

(** After [semaphore = asyncio.Semaphore(concur_req)] and the list
    comprehension that creates the coroutines. *)
Definition init (semaphore : Z) : state :=
  MkState semaphore (replicate (length records_list) Created) [].

Inductive step : state → state → Prop :=
  | step_start_raise σ i book_details e :
      tasks σ !! i = Some Created →
      records_list !! i = Some book_details →
      request_payload (h book_details) = inl e →
      step σ (MkState (sem_value σ)
                (<[i := Finished (raise e)]> (tasks σ)) (log σ))
  | step_start σ i book_details payload :
      tasks σ !! i = Some Created →
      records_list !! i = Some book_details →
      request_payload (h book_details) = inr payload →
      step σ (MkState (sem_value σ)
                (<[i := Waiting payload]> (tasks σ)) (log σ))
  | step_acquire σ i payload :
      tasks σ !! i = Some (Waiting payload) →
      0 < sem_value σ →
      step σ (MkState (sem_value σ - 1)
                (<[i := InFlight payload]> (tasks σ))
                (log σ ++ [Acquire i]))
  | step_answer σ i book_details payload :
      tasks σ !! i = Some (InFlight payload) →
      records_list !! i = Some book_details →
      step σ (MkState (sem_value σ + 1)
                (<[i := Finished
                          (classify_call book_details qry
                             (call_service (post i) AWS_AUTHOR_API payload "POST"))]>
                   (tasks σ))
                (log σ ++ [Release i])).

Inductive reachable (semaphore : Z) : state → Prop :=
  | reachable_init : reachable semaphore (init semaphore)
  | reachable_step σ σ' :
      reachable semaphore σ → step σ σ' → reachable semaphore σ'.

(** What the log holds for a task in a given phase. *)
Definition slot_discipline (σ : state) (i : nat) : Prop :=
  let acquired := occurrences (Acquire i) (log σ) in
  let released := occurrences (Release i) (log σ) in
  match tasks σ !! i with
  | Some (InFlight _) => acquired = 1%nat ∧ released = 0%nat
  | Some (Finished _) => acquired = released ∧ (released ≤ 1)%nat
  | _ => acquired = 0%nat ∧ released = 0%nat
  end.

End Batch.
End EventLoop.

(** ** Concrete records, answers and worlds used in the examples *)

Module Examples.

(** An Elasticsearch hit. *)
Definition hit (id : Z) (summary : string) : value :=
  VDict {[ "_index" := VStr "books";
           "_source" := VDict {[ "id" := VInt id; "summary" := VStr summary ]} ]}.

(** The same hit after the merge of [{"author": author}] for the term
    [qry]. *)
Definition enriched_hit (id : Z) (summary qry author : string) : value :=
  VDict {[ "_index" := VStr "books";
           "_source" := VDict {[ "id" := VInt id; "summary" := VStr summary;
                                 "author" := VStr author;
                                 "query" := VStr qry ]} ]}.

(** A store whose object [l] is the hit with id [l]. *)
Definition store : heap := λ l, hit (Z.of_nat l) "a mystery".

(** 200 with the body [{"author": a}]. *)
Definition answer_author (a : string) : post_outcome :=
  PostReturns (MkResponse 200 (VStr "OK") (VDict ∅)
                 (inr (VDict {[ "author" := VStr a ]}))).

(** 200 with the body [{}]. *)
Definition answer_empty_object : post_outcome :=
  PostReturns (MkResponse 200 (VStr "OK") (VDict ∅) (inr (VDict ∅))).

(** aiohttp's [ContentTypeError], which [response.json()] raises for a
    body that is not announced as JSON. *)
Definition ContentTypeError : exn :=
  MkExn (ClsSub "ContentTypeError" ClsClientResponseError) [] None None [].

(** 404 with an HTML body, which [response.json()] would reject. *)
Definition answer_404 : post_outcome :=
  PostReturns (MkResponse 404 (VStr "Not Found")
                 (VDict {[ "Content-Type" := VStr "text/html" ]})
                 (inl ContentTypeError)).

(** aiohttp's [ClientProxyConnectionError], a subclass of
    [ClientConnectorError]: the proxy refuses the connection. *)
Definition ClientProxyConnectionError (strerror : option string) : exn :=
  MkExn (ClsSub "ClientProxyConnectionError" ClsClientConnectorError) [] None None
    [("strerror", OVal (from_option VStr VNone strerror))].

(** The proxy refuses the connection. *)
Definition proxy_refuses : post_outcome :=
  PostRaises (ClientProxyConnectionError (Some "Connection refused")).

(** A response whose [json()] raises [web.HTTPNotFound]. *)
Definition answer_HTTPNotFound : post_outcome :=
  PostReturns (MkResponse 200 (VStr "OK") (VDict ∅)
                 (inl (MkExn ClsHTTPNotFound [] None None []))).

(** The connection is refused. *)
Definition refuse : post_outcome :=
  PostRaises (ClientConnectorError (Some "Connection refused")).

(** Three records A, B, C: the calls for A and C succeed, the call for B
    ends in the not-found signal. *)
Definition answers_A_B_C (i : nat) : transport :=
  λ url payload,
    match i with
    | 1%nat => answer_HTTPNotFound
    | _ => answer_author "Agatha Christie"
    end.

(** A callable whose coroutines raise [FetchError(7, 'boom')] from a
    [KeyError] without arguments. *)
Definition raise_FetchError_from_KeyError
    (i : nat) (item : oid) (qry : string) (semaphore : Z) (verbose : value)
    : M Result :=
  raise (FetchError (OVal (VInt 7)) (OVal (VStr "boom"))
           (Some (MkExn ClsKeyError [] None None [])) None).

(** A callable whose coroutines raise [FetchError(7, 'boom')] without
    [from]: the error has no cause. *)
Definition raise_FetchError_without_cause
    (i : nat) (item : oid) (qry : string) (semaphore : Z) (verbose : value)
    : M Result :=
  raise (FetchError (OVal (VInt 7)) (OVal (VStr "boom")) None None).

(** The search backend answers every term with two hits; every request is
    answered with an author; tasks complete in reverse order. *)
Definition two_hits_world : World :=
  MkWorld
    (λ k qry size, inr [hit (Z.of_nat (2 * k)) qry; hit (Z.of_nat (2 * k + 1)) qry])
    (λ k i url payload, answer_author "Agatha Christie")
    (λ k to_do, reverse to_do).

Definition two_terms : ElasticSearchBookService :=
  MkService ["mystery"; "romance"] (VInt 2).

(** The run over the two terms, the list it returns and the store at its
    return. *)
Definition two_terms_run : M (list (list oid) * heap) :=
  run_query_list two_hits_world two_terms.

Definition two_terms_result : list (list oid) :=
  match outcome two_terms_run with
  | Returned (result, _) => result
  | _ => []
  end.

Definition two_terms_heap : heap :=
  match outcome two_terms_run with
  | Returned (_, hf) => hf
  | _ => λ _, VNone
  end.

(** Two tasks and one slot: both tasks have evaluated their request body
    and the first one has entered the [with] block. *)
Definition payload_of (id : Z) : value := VDict {[ "book_id" := VInt id ]}.

Definition one_slot_taken : EventLoop.state :=
  EventLoop.MkState 0
    [EventLoop.InFlight (payload_of 0); EventLoop.Waiting (payload_of 1)]
    [EventLoop.Acquire 0].

End Examples.

(** ** Readings of a batch used in the further properties *)

(** The requests issued in a trace, in order: url and body. *)
Definition posts_of (t : list event) : list (string * value) :=
  omap (λ ev, match ev with EvPost url payload => Some (url, payload) | _ => None end) t.

(** The status under which the loop of [schedule_services] tallies a
    future: the status of a returned result, [error] for a [FetchError];
    anything else is not tallied. *)
Definition classify_future (m : M Result) : option HTTPStatus.Status :=
  match outcome m with
  | Returned res => Some (status res)
  | Raised e => if isinstance e ClsFetchError then Some HTTPStatus.error else None
  | Blocked => None
  end.

(** Number of futures tallied under [k]. *)
Definition count_status (k : HTTPStatus.Status) (l : list (M Result)) : nat :=
  length (List.filter (λ m, bool_decide (classify_future m = Some k)) l).

(** A future that the loop of [schedule_services] gets past: it returns,
    or it raises a [FetchError] that the handler survives. *)
Definition tallyable (verbose : value) (m : M Result) : Prop :=
  match outcome m with
  | Returned _ => True
  | Raised e =>
      isinstance e ClsFetchError = true ∧
      ∃ st, outcome (on_FetchError verbose e) = Returned st
  | Blocked => False
  end.

(** Steps a task still has before it is finished. *)
Definition steps_left (p : EventLoop.phase) : nat :=
  match p with
  | EventLoop.Created => 3
  | EventLoop.Waiting _ => 2
  | EventLoop.InFlight _ => 1
  | EventLoop.Finished _ => 0
  end%nat.

Definition rank (σ : EventLoop.state) : nat :=
  sum_list (steps_left <$> EventLoop.tasks σ).

(** A run of [n] steps of the tasks of a batch. *)
Inductive steps (post : nat → transport) (h : heap) (records_list : list oid)
    (qry : string) : nat → EventLoop.state → EventLoop.state → Prop :=
  | steps_O σ : steps post h records_list qry 0 σ σ
  | steps_S n σ σ' σ'' :
      steps post h records_list qry n σ σ' →
      EventLoop.step post h records_list qry σ' σ'' →
      steps post h records_list qry (S n) σ σ''.

(** The capacities of the semaphores created in a trace, in order. *)
Definition sems_of (t : list event) : list Z :=
  omap (λ ev, match ev with EvSemaphore capacity => Some capacity | _ => None end) t.

(** One task and one slot, at the end of its run: the connection was
    refused. *)
Definition one_task_done : EventLoop.state :=
  EventLoop.MkState 1
    [EventLoop.Finished
       (classify_call 0%nat "mystery"
          (call_service (λ _ _, Examples.refuse) AWS_AUTHOR_API
             (Examples.payload_of 0) "POST"))]
    [EventLoop.Acquire 0; EventLoop.Release 0].

(** * Properties *)

(** ** The monad *)

Lemma bind_lift_inr {A B} (a : A) (k : A → M B) : lift (inr a) ≫= k = k a.
Proof. unfold mbind, M_bind, bind. simpl. by destruct (k a). Qed.

Lemma bind_ret {A B} (a : A) (k : A → M B) : ret a ≫= k = k a.
Proof. apply bind_lift_inr. Qed.

Lemma bind_block {A B} (k : A → M B) : block ≫= k = ([], Blocked).
Proof. done. Qed.

Lemma bind_lift_inl {A B} (e : exn) (k : A → M B) :
  lift (inl e) ≫= k = ([], Raised e).
Proof. done. Qed.

Lemma bind_Returned_inv {A B} (m : M A) (k : A → M B) t b :
  m ≫= k = (t, Returned b) →
  ∃ t1 a t2, m = (t1, Returned a) ∧ k a = (t2, Returned b) ∧ t = t1 ++ t2.
Proof.
  destruct m as [t1 [e|a|]]; try done.
  unfold mbind, M_bind, bind. destruct (k a) as [t2 r] eqn:Hk.
  intros [= <- ->]. eauto 10.
Qed.

Lemma trace_bind {A B} (m : M A) (k : A → M B) :
  trace (m ≫= k) =
  trace m ++ match outcome m with
             | Returned a => trace (k a)
             | _ => []
             end.
Proof.
  destruct m as [t [e|a|]]; simpl; rewrite ?app_nil_r; try done.
  unfold mbind, M_bind, bind. by destruct (k a).
Qed.

Lemma outcome_bind {A B} (m : M A) (k : A → M B) :
  outcome (m ≫= k) =
  match outcome m with
  | Returned a => outcome (k a)
  | Raised e => Raised e
  | Blocked => Blocked
  end.
Proof.
  destruct m as [t [e|a|]]; simpl; try done.
  unfold mbind, M_bind, bind. by destruct (k a).
Qed.

Lemma trace_try_except_else {A B} (body : M A) handler (orelse : A → M B) :
  trace (try_except_else body handler orelse) =
  trace body ++ match outcome body with
                | Returned a => trace (orelse a)
                | Raised e => from_option trace [] (handler e)
                | Blocked => []
                end.
Proof.
  destruct body as [t [e|a|]]; simpl; rewrite ?app_nil_r; try done.
  - destruct (handler e) as [[t' r]|]; simpl; by rewrite ?app_nil_r.
  - by destruct (orelse a).
Qed.

Lemma outcome_try_except_else {A B} (body : M A) handler (orelse : A → M B) :
  outcome (try_except_else body handler orelse) =
  match outcome body with
  | Returned a => outcome (orelse a)
  | Raised e => from_option outcome (Raised e) (handler e)
  | Blocked => Blocked
  end.
Proof.
  destruct body as [t [e|a|]]; simpl; try done.
  - by destruct (handler e) as [[t' r]|].
  - by destruct (orelse a).
Qed.

(** ** Enricher *)

(** The merge either fails before it assigns anything or performs both
    assignments. *)
Lemma add_additional_data_to_record_cases data qry book_details :
  match add_additional_data_to_record data qry book_details with
  | inr book_details' =>
      ∃ author d source,
        getitem data "author" = inr author ∧
        book_details = VDict d ∧ d !! "_source" = Some (VDict source) ∧
        book_details' =
          VDict (<["_source" :=
                     VDict (<["query" := VStr qry]> (<["author" := author]> source))]> d)
  | inl _ =>
      (∃ e, getitem data "author" = inl e) ∨
      (∀ d, book_details ≠ VDict d) ∨
      (∃ d, book_details = VDict d ∧ ∀ source, d !! "_source" ≠ Some (VDict source))
  end.
Proof.
  unfold add_additional_data_to_record.
  destruct (getitem data "author") as [e|author] eqn:Ha; [eauto|].
  destruct book_details as [| | | | |d]; simpl; try (right; left; congruence).
  destruct (d !! "_source") as [[| | | | |source]|] eqn:Hs; simpl;
    try (right; right; exists d; split; [done|congruence]).
  eauto 10.
Qed.

(** C8: for a record with a [_source] object and a response with an
    [author] field, the merge returns the record in which
    [_source.author] is the response's author and [_source.query] is the
    query term; every other key of the record and every other key of
    [_source] keeps its value. *)
Theorem add_additional_data_to_record_sets_author_and_query
    (data : value) (qry : string) (d source : gmap string value) (author : value) :
  getitem data "author" = inr author →
  d !! "_source" = Some (VDict source) →
  ∃ d' source',
    add_additional_data_to_record data qry (VDict d) = inr (VDict d') ∧
    d' !! "_source" = Some (VDict source') ∧
    source' !! "author" = Some author ∧
    source' !! "query" = Some (VStr qry) ∧
    (∀ k, k ≠ "_source" → d' !! k = d !! k) ∧
    (∀ k, k ≠ "author" → k ≠ "query" → source' !! k = source !! k).
Proof.
  intros Ha Hs.
  exists (<["_source" := VDict (<["query" := VStr qry]> (<["author" := author]> source))]> d),
         (<["query" := VStr qry]> (<["author" := author]> source)).
  unfold add_additional_data_to_record. rewrite Ha. simpl. rewrite Hs. simpl.
  split; [done|]. split; [by rewrite lookup_insert_eq|].
  split; [by rewrite lookup_insert_ne, lookup_insert_eq|].
  split; [by rewrite lookup_insert_eq|].
  split.
  - intros k Hk. by rewrite lookup_insert_ne.
  - intros k Hk1 Hk2. by rewrite !lookup_insert_ne.
Qed.

Lemma add_additional_data_to_record_sets_author_and_query_witness :
  ∃ d' source',
    add_additional_data_to_record
      (VDict {[ "author" := VStr "Agatha Christie" ]}) "mystery"
      (VDict {[ "_source" := VDict {[ "id" := VInt 1 ]} ]}) = inr (VDict d') ∧
    d' !! "_source" = Some (VDict source') ∧
    source' !! "author" = Some (VStr "Agatha Christie") ∧
    source' !! "query" = Some (VStr "mystery") ∧
    (∀ k, k ≠ "_source" →
          d' !! k = ({[ "_source" := VDict {[ "id" := VInt 1 ]} ]} : gmap string value) !! k) ∧
    (∀ k, k ≠ "author" → k ≠ "query" →
          source' !! k = ({[ "id" := VInt 1 ]} : gmap string value) !! k).
Proof.
  apply (add_additional_data_to_record_sets_author_and_query
           (VDict {[ "author" := VStr "Agatha Christie" ]}) "mystery"
           {[ "_source" := VDict {[ "id" := VInt 1 ]} ]} {[ "id" := VInt 1 ]}
           (VStr "Agatha Christie")).
  - reflexivity.
  - reflexivity.
Defined.

(** ** Exception classes *)

Lemma issubclass_refl c : issubclass c c = true.
Proof.
  destruct c; simpl; try done; rewrite bool_decide_eq_true_2; done.
Qed.

(** An instance of a class passes the test for that class. *)
Lemma isinstance_cls e c : exn_cls e = c → isinstance e c = true.
Proof. intros <-. apply issubclass_refl. Qed.

(** What derives from a subclass of [Exception] is a subclass of
    [Exception]. *)
Lemma issubclass_is_Exception c c' :
  issubclass c c' = true → is_Exception c' = true → is_Exception c = true.
Proof.
  intros Hsub Hex. induction c as [| | | | | | | | | | |n|n|n base IH];
    try done.
  - destruct c'; simpl in Hsub; try done;
      rewrite orb_false_r in Hsub; apply bool_decide_eq_true in Hsub;
      by simplify_eq.
  - destruct c'; simpl in *; try done;
      try (apply orb_true_iff in Hsub as [Heq|Hsub];
           [apply bool_decide_eq_true in Heq; by simplify_eq|]);
      by apply IH.
Qed.

(** An instance of a class outside [Exception] passes no test for a
    subclass of [Exception]. *)
Lemma isinstance_not_Exception e c :
  is_Exception (exn_cls e) = false → is_Exception c = true →
  isinstance e c = false.
Proof.
  intros Hn Hc. unfold isinstance.
  destruct (issubclass (exn_cls e) c) eqn:Hsub; [|done].
  by rewrite (issubclass_is_Exception _ _ Hsub Hc) in Hn.
Qed.

(** ** RemoteCaller *)

(** A POST whose transport returns a response. *)
Lemma call_service_response post url data r :
  post url data = PostReturns r →
  call_service post url data "POST" =
  if Z.eqb (resp_status r) 200
  then ([EvPost url data; EvJson], match resp_json r with
                                   | inl e => Raised e
                                   | inr v => Returned v
                                   end)
  else ([EvPost url data],
        Raised (match ClientResponseError (resp_status r) (resp_reason r)
                        (resp_headers r) with
                | inl e => e
                | inr e => e
                end)).
Proof.
  intros Hp. unfold call_service. simpl. rewrite Hp. simpl.
  destruct (Z.eqb (resp_status r) 200); simpl; [by destruct (resp_json r)|done].
Qed.

(** C6 fails on the code: for a response whose status is not 200,
    [call_service] evaluates [aiohttp.ClientResponseError(code=..,
    message=.., headers=..)] without the [request_info] and [history]
    that the constructor requires.  The call raises [TypeError], and this
    [TypeError], which is no [ClientResponseError] and carries neither the
    status code nor the reason phrase nor the headers, is what leaves
    [call_service].  The only transport operation is the POST itself: the
    body is never read and nothing is returned. *)
Theorem call_service_non_200_raises_TypeError
    (post : transport) (url : string) (data : value) (r : response) :
  post url data = PostReturns r →
  resp_status r ≠ 200 →
  ∃ e,
    call_service post url data "POST" = ([EvPost url data], Raised e) ∧
    exn_cls e = ClsTypeError ∧
    isinstance e ClsClientResponseError = false ∧
    exn_attrs e = [] ∧
    EvJson ∉ trace (call_service post url data "POST").
Proof.
  intros Hp Hs.
  rewrite (call_service_response _ _ _ _ Hp).
  apply Z.eqb_neq in Hs. rewrite Hs. simpl.
  eexists. split; [reflexivity|]. repeat split; try done.
  intros Hin. apply list_elem_of_singleton in Hin. discriminate.
Qed.

Lemma call_service_non_200_raises_TypeError_witness :
  ∃ e,
    call_service (λ _ _, Examples.answer_404) AWS_AUTHOR_API
      (VDict {[ "book_id" := VInt 1 ]}) "POST"
    = ([EvPost AWS_AUTHOR_API (VDict {[ "book_id" := VInt 1 ]})], Raised e) ∧
    exn_cls e = ClsTypeError ∧
    isinstance e ClsClientResponseError = false ∧
    exn_attrs e = [] ∧
    EvJson ∉ trace (call_service (λ _ _, Examples.answer_404) AWS_AUTHOR_API
                      (VDict {[ "book_id" := VInt 1 ]}) "POST").
Proof.
  apply (call_service_non_200_raises_TypeError
           (λ _ _, Examples.answer_404) AWS_AUTHOR_API
           (VDict {[ "book_id" := VInt 1 ]})
           (MkResponse 404 (VStr "Not Found")
              (VDict {[ "Content-Type" := VStr "text/html" ]})
              (inl Examples.ContentTypeError))).
  - reflexivity.
  - simpl. lia.
Defined.

(** A POST whose transport raises a connector error. *)
Lemma call_service_connector_error post url data ce :
  post url data = PostRaises ce →
  isinstance ce ClsClientConnectorError = true →
  call_service post url data "POST" =
  match getattr ce "strerror" (Some ce) with
  | inl e => ([EvPost url data], Raised e)
  | inr strerror =>
      match str_add "call author aws service: " strerror ce with
      | inl e => ([EvPost url data], Raised e)
      | inr message => ([EvPost url data], Raised (Exception (OVal (VStr message)) ce))
      end
  end.
Proof.
  intros Hp Hc. unfold call_service. simpl. rewrite Hp, Hc. simpl.
  destruct (getattr ce "strerror" (Some ce)) as [e|strerror]; simpl; [done|].
  by destruct (str_add _ strerror ce).
Qed.

(** C5, as stated, fails: when the connection is refused the call raises
    an instance of plain [Exception], which is no connection-error class,
    and its [__cause__] is unset. *)
Lemma call_service_connection_failure_is_no_ConnectionError :
  ∃ e,
    outcome (call_service (λ _ _, Examples.refuse) AWS_AUTHOR_API
               (VDict {[ "book_id" := VInt 1 ]}) "POST") = Raised e ∧
    is_connection_class (exn_cls e) = false ∧
    exn_cause e = None.
Proof. eexists. split; [reflexivity|]. split; reflexivity. Qed.

(** C5, amended: when the transport raises a [ClientConnectorError] whose
    [strerror] is the text [s], the call raises an instance of plain
    [Exception] whose only argument is the message
    ["call author aws service: " + s]; its [__cause__] is unset and the
    connector error is its implicit [__context__]; no body is read. *)
Theorem call_service_connection_failure_raises_Exception
    (post : transport) (url : string) (data : value) (ce : exn) (s : string) :
  post url data = PostRaises ce →
  exn_cls ce = ClsClientConnectorError →
  getattr ce "strerror" (Some ce) = inr (OVal (VStr s)) →
  ∃ e,
    call_service post url data "POST" = ([EvPost url data], Raised e) ∧
    exn_cls e = ClsException ∧
    exn_args e = [OVal (VStr ("call author aws service: " ++ s)%string)] ∧
    exn_cause e = None ∧
    exn_context e = Some ce.
Proof.
  intros Hp Hc Hs.
  rewrite (call_service_connector_error _ _ _ _ Hp (isinstance_cls _ _ Hc)), Hs.
  simpl. eexists. split; [reflexivity|]. done.
Qed.

Lemma call_service_connection_failure_raises_Exception_witness :
  ∃ e,
    call_service (λ _ _, Examples.refuse) AWS_AUTHOR_API
      (VDict {[ "book_id" := VInt 1 ]}) "POST"
    = ([EvPost AWS_AUTHOR_API (VDict {[ "book_id" := VInt 1 ]})], Raised e) ∧
    exn_cls e = ClsException ∧
    exn_args e = [OVal (VStr "call author aws service: Connection refused")] ∧
    exn_cause e = None ∧
    exn_context e = Some (ClientConnectorError (Some "Connection refused")).
Proof.
  apply (call_service_connection_failure_raises_Exception
           (λ _ _, Examples.refuse) AWS_AUTHOR_API
           (VDict {[ "book_id" := VInt 1 ]})
           (ClientConnectorError (Some "Connection refused"))
           "Connection refused").
  - reflexivity.
  - reflexivity.
  - reflexivity.
Defined.

(** Whatever [Exception] the transport raises, [call_service] raises in
    turn, and what it raises is never of a connection-error class. *)
Lemma call_service_transport_raises post url data ce :
  post url data = PostRaises ce →
  is_Exception (exn_cls ce) = true →
  ∃ e, outcome (call_service post url data "POST") = Raised e ∧
       (exn_cls e = ClsException ∨ exn_cls e = ClsTypeError ∨
        exn_cls e = ClsAttributeError).
Proof.
  intros Hp Hex. unfold call_service. simpl. rewrite Hp.
  destruct (isinstance ce ClsClientConnectorError); simpl.
  - unfold getattr.
    destruct (list_find _ _) as [[? kv]|]; simpl.
    + destruct (snd kv) as [[| | |s| |]|]; simpl; eauto.
    + eauto.
  - rewrite Hex. simpl. eauto.
Qed.

(** ** Diagnostic extraction *)

(** With a cause, the extraction yields the cause's first argument, or
    the name of the cause's class when it has no argument. *)
Lemma error_msg_of_with_cause exc cause :
  exn_cause exc = Some cause →
  error_msg_of exc =
  inr (match exn_args cause with
       | x :: _ => x
       | [] => OVal (VStr (class_name (exn_cls cause)))
       end).
Proof.
  intros Hc. unfold error_msg_of. rewrite Hc.
  by destruct (exn_args cause).
Qed.

(** C7 fails on a caught error without cause: [exc.__cause__] is [None],
    [None.args] raises [AttributeError], the clause [except IndexError]
    does not catch it, and the extraction raises instead of falling back
    to a name. *)
Theorem error_msg_of_without_cause_raises (exc : exn) :
  exn_cause exc = None →
  ∃ e, error_msg_of exc = inl e ∧
       exn_cls e = ClsAttributeError ∧ exn_context e = Some exc.
Proof.
  intros Hc. unfold error_msg_of. rewrite Hc. simpl.
  eexists. split; [reflexivity|]. done.
Qed.

Lemma error_msg_of_without_cause_raises_witness :
  ∃ e, error_msg_of (FetchError (OVal (VInt 7)) (OVal (VStr "boom")) None None) = inl e ∧
       exn_cls e = ClsAttributeError ∧
       exn_context e = Some (FetchError (OVal (VInt 7)) (OVal (VStr "boom")) None None).
Proof.
  apply (error_msg_of_without_cause_raises
           (FetchError (OVal (VInt 7)) (OVal (VStr "boom")) None None)).
  reflexivity.
Defined.

(** A [FetchError] with a cause is tallied as an error, and the diagnostic
    line names the class of a cause that has no argument. *)
Example schedule_services_FetchError_with_cause_tallied :
  ∃ tally,
    schedule_services id [0%nat] "mystery"
      Examples.raise_FetchError_from_KeyError
      (VInt DEFAULT_CONCUR_REQ) MAX_CONCUR_REQ
    = ([EvSemaphore 1000; EvDiag (OVal (VInt 7)) (OVal (VStr "KeyError"))],
       Returned tally) ∧
    counter_get tally HTTPStatus.error = 1%nat.
Proof. eexists. split; [reflexivity|]. by vm_compute. Qed.

(** The [AttributeError] leaves the scheduler: a batch of one record whose
    task raises a [FetchError] without cause ends with that
    [AttributeError] instead of a tally. *)
Lemma schedule_services_FetchError_without_cause_escapes :
  ∃ e,
    outcome (schedule_services id [0%nat] "mystery"
               Examples.raise_FetchError_without_cause
               (VInt DEFAULT_CONCUR_REQ) MAX_CONCUR_REQ) = Raised e ∧
    exn_cls e = ClsAttributeError.
Proof. eexists. split; reflexivity. Qed.

(** ** Scheduler: the tally *)

Lemma counter_get_incr c k k' :
  counter_get (counter_incr c k) k' =
  if decide (k = k') then S (counter_get c k) else counter_get c k'.
Proof.
  unfold counter_incr, counter_get, Counter in *.
  rewrite lookup_insert. by destruct (decide (k = k')).
Qed.

Lemma counter_total_incr c k :
  counter_total (counter_incr c k) = S (counter_total c).
Proof.
  unfold counter_total. rewrite !counter_get_incr.
  destruct k; simpl; lia.
Qed.

Lemma tally_loop_outcome_cons verbose future rest counter :
  outcome (tally_loop verbose (future :: rest) counter) =
  match outcome future with
  | Returned res =>
      outcome (tally_loop verbose rest (counter_incr counter (status res)))
  | Raised exc =>
      if isinstance exc ClsFetchError then
        match outcome (on_FetchError verbose exc) with
        | Returned st => outcome (tally_loop verbose rest (counter_incr counter st))
        | Raised e => Raised e
        | Blocked => Blocked
        end
      else Raised exc
  | Blocked => Blocked
  end.
Proof.
  simpl. rewrite outcome_bind, outcome_try_except_else.
  destruct (outcome future) as [exc|res|]; simpl; try done.
  destruct (isinstance exc ClsFetchError); simpl; done.
Qed.

Lemma tally_loop_trace_cons verbose future rest counter :
  trace (tally_loop verbose (future :: rest) counter) =
  trace future ++
  match outcome future with
  | Returned res =>
      trace (tally_loop verbose rest (counter_incr counter (status res)))
  | Raised exc =>
      if isinstance exc ClsFetchError then
        trace (on_FetchError verbose exc) ++
        match outcome (on_FetchError verbose exc) with
        | Returned st => trace (tally_loop verbose rest (counter_incr counter st))
        | _ => []
        end
      else []
  | Blocked => []
  end.
Proof.
  simpl. rewrite trace_bind, trace_try_except_else, outcome_try_except_else.
  rewrite <- app_assoc. f_equal.
  destruct (outcome future) as [exc|res|]; simpl; try done.
  destruct (isinstance exc ClsFetchError); simpl; done.
Qed.

(** Each future consumed adds one to exactly one count. *)
Lemma tally_loop_total verbose arrived : ∀ counter tally,
  outcome (tally_loop verbose arrived counter) = Returned tally →
  counter_total tally = (counter_total counter + length arrived)%nat.
Proof.
  induction arrived as [|future rest IH]; intros counter tally.
  - simpl. intros [= <-]. lia.
  - rewrite tally_loop_outcome_cons.
    destruct (outcome future) as [exc|res|]; [|intros H|done].
    + destruct (isinstance exc ClsFetchError); [|done].
      destruct (outcome (on_FetchError verbose exc)) as [e|st|]; [done| |done].
      intros H. apply IH in H. rewrite counter_total_incr in H. simpl. lia.
    + apply IH in H. rewrite counter_total_incr in H. simpl. lia.
Qed.

(** A loop over futures that all return a result returns a tally. *)
Lemma tally_loop_returns verbose arrived : ∀ counter,
  Forall (λ future, ∃ res, outcome future = Returned res) arrived →
  ∃ tally, outcome (tally_loop verbose arrived counter) = Returned tally.
Proof.
  induction arrived as [|future rest IH]; intros counter Hall.
  - by exists counter.
  - inversion Hall as [|? ? [res Hres] Hrest]; subst.
    rewrite tally_loop_outcome_cons, Hres. by apply IH.
Qed.

Lemma schedule_services_outcome order records_list qry ncs verbose concur_req :
  outcome (schedule_services order records_list qry ncs verbose concur_req) =
  if Z.ltb concur_req 0 then
    Raised (interp_error ClsValueError "Semaphore initial value must be >= 0")
  else
    let to_do_iter := order (to_do_of records_list qry ncs verbose concur_req) in
    match outcome (tally_loop verbose (List.filter completes to_do_iter) ∅) with
    | Returned counter =>
        if forallb completes to_do_iter then Returned counter else Blocked
    | Raised e => Raised e
    | Blocked => Blocked
    end.
Proof.
  unfold schedule_services, Semaphore.
  destruct (Z.ltb concur_req 0); [done|].
  rewrite !outcome_bind. simpl.
  fold (to_do_of records_list qry ncs verbose concur_req).
  rewrite outcome_bind.
  destruct (negb (truthy verbose)); simpl;
    rewrite outcome_bind;
    destruct (outcome (tally_loop _ _ _)); simpl; try done;
    by destruct (forallb _ _).
Qed.

Lemma schedule_services_trace order records_list qry ncs verbose concur_req :
  trace (schedule_services order records_list qry ncs verbose concur_req) =
  if Z.ltb concur_req 0 then []
  else
    let to_do_iter := order (to_do_of records_list qry ncs verbose concur_req) in
    EvSemaphore concur_req ::
    (if truthy verbose then [] else [EvProgress (length records_list)]) ++
    trace (tally_loop verbose (List.filter completes to_do_iter) ∅).
Proof.
  unfold schedule_services, Semaphore.
  destruct (Z.ltb concur_req 0); [done|].
  rewrite !trace_bind, !outcome_bind. simpl.
  fold (to_do_of records_list qry ncs verbose concur_req).
  f_equal. rewrite trace_bind.
  destruct (truthy verbose); simpl;
    rewrite trace_bind;
    destruct (outcome (tally_loop _ _ _)); simpl; rewrite ?app_nil_r; try done;
    destruct (forallb _ _); simpl; by rewrite ?app_nil_r.
Qed.

Lemma filter_completes_all {A} (l : list (M A)) :
  forallb completes l = true → List.filter completes l = l.
Proof.
  induction l as [|m l IH]; simpl; [done|].
  intros [Hm Hl]%andb_prop. rewrite Hm. f_equal. by apply IH.
Qed.

Lemma to_do_of_length records_list qry ncs verbose semaphore :
  length (to_do_of records_list qry ncs verbose semaphore) = length records_list.
Proof. unfold to_do_of. apply length_imap. Qed.

Lemma to_do_of_Forall (P : M Result → Prop) records_list qry ncs verbose semaphore :
  (∀ i l, records_list !! i = Some l → P (ncs i l qry semaphore verbose)) →
  Forall P (to_do_of records_list qry ncs verbose semaphore).
Proof.
  intros H. apply Forall_lookup. intros i m. unfold to_do_of.
  rewrite list_lookup_imap.
  destruct (records_list !! i) as [l|] eqn:Hl; simpl; [|done].
  intros [= <-]. by apply H.
Qed.

Lemma Returned_completes {A} (l : list (M A)) :
  Forall (λ m, ∃ a, outcome m = Returned a) l → forallb completes l = true.
Proof.
  induction 1 as [|m l [a Ha] _ IH]; simpl; [done|].
  unfold completes at 1. by rewrite Ha.
Qed.

(** A tally that the scheduler returns counts every record once. *)
Lemma schedule_services_tally_total
    order records_list qry ncs verbose concur_req tally :
  (∀ l, order l ≡ₚ l) →
  outcome (schedule_services order records_list qry ncs verbose concur_req)
  = Returned tally →
  counter_total tally = length records_list.
Proof.
  intros Hperm. rewrite schedule_services_outcome.
  destruct (Z.ltb concur_req 0); [done|]. simpl.
  destruct (outcome (tally_loop _ _ _)) as [|counter|] eqn:Hloop; try done.
  destruct (forallb _ _) eqn:Hall; [|done].
  intros [= <-]. rewrite (filter_completes_all _ Hall) in Hloop.
  apply tally_loop_total in Hloop.
  rewrite Hloop, (Permutation_length (Hperm _)), to_do_of_length.
  reflexivity.
Qed.

(** The scheduler returns a tally when the semaphore can be created and
    every task returns a result. *)
Lemma schedule_services_returns
    order records_list qry ncs verbose concur_req :
  (∀ l, order l ≡ₚ l) →
  (0 ≤ concur_req)%Z →
  (∀ i l, records_list !! i = Some l →
          ∃ res, outcome (ncs i l qry concur_req verbose) = Returned res) →
  ∃ tally,
    outcome (schedule_services order records_list qry ncs verbose concur_req)
    = Returned tally.
Proof.
  intros Hperm Hpos Htasks. rewrite schedule_services_outcome.
  destruct (Z.ltb_spec concur_req 0) as [?|_]; [lia|]. simpl.
  assert (Forall (λ m : M Result, ∃ res, outcome m = Returned res)
            (order (to_do_of records_list qry ncs verbose concur_req))) as Hall.
  { rewrite (Hperm _). by apply to_do_of_Forall. }
  pose proof (Returned_completes _ Hall) as Hc.
  rewrite (filter_completes_all _ Hc), Hc.
  destruct (tally_loop_returns verbose _ ∅ Hall) as [tally ->]. eauto.
Qed.

(** C2: a tally that the scheduler returns counts every record once: its
    three counts add up to the number of records; and the scheduler does
    return a tally whenever the semaphore can be created and every task
    returns a result. *)
Theorem schedule_services_tally_sums_to_len
    (order : list (M Result) → list (M Result))
    (records_list : list oid) (qry : string)
    (next_calling_service : nat → oid → string → Z → value → M Result)
    (verbose : value) (concur_req : Z) :
  (∀ l, order l ≡ₚ l) →
  (∀ tally,
     outcome (schedule_services order records_list qry next_calling_service
                verbose concur_req) = Returned tally →
     (counter_get tally HTTPStatus.ok + counter_get tally HTTPStatus.not_found
      + counter_get tally HTTPStatus.error)%nat = length records_list) ∧
  ((0 ≤ concur_req)%Z →
   (∀ i l, records_list !! i = Some l →
           ∃ res, outcome (next_calling_service i l qry concur_req verbose)
                  = Returned res) →
   ∃ tally,
     outcome (schedule_services order records_list qry next_calling_service
                verbose concur_req) = Returned tally).
Proof.
  intros Hperm. split.
  - intros tally Hout. by apply (schedule_services_tally_total _ _ _ _ _ _ _ Hperm Hout).
  - by apply schedule_services_returns.
Qed.

Lemma schedule_services_tally_sums_to_len_witness :
  ∃ tally,
    outcome (schedule_services id [0; 1; 2]%nat "mystery"
               (λ i, retrieve_author_details (Examples.answers_A_B_C i) Examples.store)
               (VInt DEFAULT_CONCUR_REQ) 2) = Returned tally ∧
    (counter_get tally HTTPStatus.ok + counter_get tally HTTPStatus.not_found
     + counter_get tally HTTPStatus.error)%nat = 3%nat.
Proof.
  destruct (schedule_services_tally_sums_to_len id [0; 1; 2]%nat "mystery"
              (λ i, retrieve_author_details (Examples.answers_A_B_C i) Examples.store)
              (VInt DEFAULT_CONCUR_REQ) 2) as [Hsum Hreturns].
  - intros l. reflexivity.
  - destruct Hreturns as [tally Htally].
    + lia.
    + intros i l Hl.
      destruct i as [|[|[|i]]]; [| | |discriminate Hl];
        injection Hl as <-; eexists; reflexivity.
    + exists tally. split; [exact Htally|]. exact (Hsum tally Htally).
Defined.

(** The scenario of three records A, B, C with two slots, where B's call
    ends in the not-found signal: the tally is {ok: 2, not_found: 1,
    error: 0}. *)
Example schedule_services_A_B_C :
  ∃ tally,
    outcome (schedule_services id [0; 1; 2]%nat "mystery"
               (λ i, retrieve_author_details (Examples.answers_A_B_C i) Examples.store)
               (VInt DEFAULT_CONCUR_REQ) 2) = Returned tally ∧
    counter_get tally HTTPStatus.ok = 2%nat ∧
    counter_get tally HTTPStatus.not_found = 1%nat ∧
    counter_get tally HTTPStatus.error = 0%nat.
Proof. eexists. split; [reflexivity|]. by vm_compute. Qed.

(** ** The per-record task *)

Lemma retrieve_author_details_outcome post h book_details qry semaphore verbose :
  outcome (retrieve_author_details post h book_details qry semaphore verbose) =
  match request_payload (h book_details) with
  | inl e => Raised e
  | inr data =>
      if Z.eqb semaphore 0 then Blocked
      else
        match outcome (call_service post AWS_AUTHOR_API data "POST") with
        | Returned _ => Returned (MkResult HTTPStatus.ok book_details)
        | Raised exc =>
            if isinstance exc ClsHTTPNotFound
            then Returned (MkResult HTTPStatus.not_found book_details)
            else if is_Exception (exn_cls exc)
                 then Raised (Exception (OExn exc) exc)
                 else Raised exc
        | Blocked => Blocked
        end
  end.
Proof.
  unfold retrieve_author_details.
  destruct (request_payload (h book_details)) as [e|data];
    [by rewrite bind_lift_inl|rewrite bind_lift_inr].
  unfold classify_call, acquire.
  rewrite outcome_bind, outcome_try_except_else.
  destruct (Z.eqb semaphore 0); [by rewrite bind_block|rewrite bind_ret].
  destruct (outcome (call_service _ _ _ _)) as [exc|d|]; simpl; try done.
  unfold retrieve_author_details_except.
  destruct (isinstance exc ClsHTTPNotFound); simpl; [done|].
  destruct (is_Exception (exn_cls exc)); simpl; done.
Qed.

Lemma retrieve_author_details_trace post h book_details qry semaphore verbose :
  trace (retrieve_author_details post h book_details qry semaphore verbose) =
  match request_payload (h book_details) with
  | inl e => []
  | inr data =>
      if Z.eqb semaphore 0 then []
      else
        trace (call_service post AWS_AUTHOR_API data "POST") ++
        match outcome (call_service post AWS_AUTHOR_API data "POST") with
        | Returned d => [EvSubmit (MkJob d qry book_details)]
        | _ => []
        end
  end.
Proof.
  unfold retrieve_author_details.
  destruct (request_payload (h book_details)) as [e|data];
    [by rewrite bind_lift_inl|rewrite bind_lift_inr].
  unfold classify_call, acquire.
  rewrite trace_bind, trace_try_except_else, outcome_try_except_else.
  destruct (Z.eqb semaphore 0); [by rewrite bind_block|rewrite bind_ret].
  rewrite <- app_assoc. f_equal.
  destruct (outcome (call_service _ _ _ _)) as [exc|d|]; simpl;
    rewrite ?app_nil_r; try done.
  unfold retrieve_author_details_except.
  destruct (isinstance exc ClsHTTPNotFound); simpl; [done|].
  destruct (is_Exception (exn_cls exc)); simpl; done.
Qed.

(** [retrieve_author_details] never raises a [FetchError] of its own:
    what it raises is a plain [Exception], an error of the request body,
    or an exception outside [Exception] that it lets through. *)
Lemma retrieve_author_details_raises post h book_details qry semaphore verbose e :
  outcome (retrieve_author_details post h book_details qry semaphore verbose)
  = Raised e →
  request_payload (h book_details) = inl e ∨
  exn_cls e = ClsException ∨
  is_Exception (exn_cls e) = false.
Proof.
  rewrite retrieve_author_details_outcome.
  destruct (request_payload (h book_details)) as [e'|data]; [intros [= ->]; eauto|].
  destruct (Z.eqb semaphore 0); [done|].
  destruct (outcome (call_service _ _ _ _)) as [exc|d|]; try done.
  destruct (isinstance exc ClsHTTPNotFound); [done|].
  destruct (is_Exception (exn_cls exc)) eqn:Hex; intros [= <-]; eauto.
Qed.

(** ** Scheduler: errors of the tasks *)

(** The first future that raises anything but a [FetchError] ends the
    loop with that exception. *)
Lemma tally_loop_raises verbose (P : exn → Prop) arrived : ∀ counter,
  arrived ≠ [] →
  Forall (λ future, ∃ e, outcome future = Raised e ∧
                         isinstance e ClsFetchError = false ∧ P e) arrived →
  ∃ e, outcome (tally_loop verbose arrived counter) = Raised e ∧ P e.
Proof.
  destruct arrived as [|future rest]; intros counter Hne Hall; [done|].
  inversion Hall as [|? ? (e & He & Hcls & HP) _]; subst.
  rewrite tally_loop_outcome_cons, He, Hcls. eauto.
Qed.

Lemma Raised_completes {A} (P : exn → Prop) (l : list (M A)) :
  Forall (λ m, ∃ e, outcome m = Raised e ∧ P e) l → forallb completes l = true.
Proof.
  induction 1 as [|m l (e & He & _) _ IH]; simpl; [done|].
  unfold completes at 1. by rewrite He.
Qed.

(** A task whose request meets a connector error raises a plain
    [Exception]. *)
Lemma retrieve_author_details_connection_failure
    post h book_details qry semaphore verbose payload ce :
  request_payload (h book_details) = inr payload →
  semaphore ≠ 0 →
  post AWS_AUTHOR_API payload = PostRaises ce →
  exn_cls ce = ClsClientConnectorError →
  ∃ e, outcome (retrieve_author_details post h book_details qry semaphore verbose)
       = Raised e ∧ exn_cls e = ClsException.
Proof.
  intros Hpay Hsem Hpost Hcls.
  rewrite retrieve_author_details_outcome, Hpay.
  apply Z.eqb_neq in Hsem. rewrite Hsem.
  destruct (call_service_transport_raises _ _ _ _ Hpost) as (e & -> & He).
  { by rewrite Hcls. }
  assert (isinstance e ClsHTTPNotFound = false) as ->.
  { unfold isinstance. by destruct He as [->|[->| ->]]. }
  assert (is_Exception (exn_cls e) = true) as ->.
  { destruct He as [->|[->| ->]]; done. }
  eauto.
Qed.

(** C1 fails on the code: [retrieve_author_details] re-raises every
    failure of the call as a plain [Exception], and [schedule_services]
    catches [FetchError] only.  When the transport raises a connection
    failure for every one of N ≥ 1 records, the batch ends with an
    [Exception] that leaves the scheduler, and no tally is returned. *)
Theorem schedule_services_connection_failures_escape
    (order : list (M Result) → list (M Result)) (post : nat → transport)
    (h : heap) (records_list : list oid) (qry : string)
    (verbose : value) (concur_req : Z) :
  (∀ l, order l ≡ₚ l) →
  (0 < concur_req)%Z →
  records_list ≠ [] →
  (∀ i l, records_list !! i = Some l →
          ∃ payload, request_payload (h l) = inr payload) →
  (∀ i url payload, ∃ ce, post i url payload = PostRaises ce ∧
                          exn_cls ce = ClsClientConnectorError) →
  ∃ e,
    outcome (schedule_services order records_list qry
               (λ i, retrieve_author_details (post i) h) verbose concur_req)
    = Raised e ∧
    exn_cls e = ClsException.
Proof.
  intros Hperm Hpos Hne Hpay Hpost.
  rewrite schedule_services_outcome.
  destruct (Z.ltb_spec concur_req 0) as [?|_]; [lia|]. simpl.
  set (to_do := to_do_of _ _ _ _ _).
  assert (Forall (λ m : M Result, ∃ e, outcome m = Raised e ∧
                    isinstance e ClsFetchError = false ∧
                    exn_cls e = ClsException) (order to_do)) as Hall.
  { rewrite (Hperm _). apply to_do_of_Forall. intros i l Hl.
    destruct (Hpay i l Hl) as [payload Hp].
    destruct (Hpost i AWS_AUTHOR_API payload) as (ce & Hce & Hcls).
    destruct (retrieve_author_details_connection_failure
                (post i) h l qry concur_req verbose payload ce)
      as (e & He & Hcls'); [done|lia|done|done|].
    exists e. split; [done|]. split; [|done].
    unfold isinstance. rewrite Hcls'. done. }
  assert (forallb completes (order to_do) = true) as Hc.
  { apply (Raised_completes
             (λ e, isinstance e ClsFetchError = false ∧ exn_cls e = ClsException)).
    done. }
  rewrite (filter_completes_all _ Hc).
  destruct (tally_loop_raises verbose (λ e, exn_cls e = ClsException)
              (order to_do) ∅) as (e & -> & He); [|done|eauto].
  intros Hnil. apply Hne.
  apply (f_equal length) in Hnil.
  rewrite (Permutation_length (Hperm _)) in Hnil. unfold to_do in Hnil.
  rewrite to_do_of_length in Hnil. by destruct records_list.
Qed.

Lemma schedule_services_connection_failures_escape_witness :
  ∃ e,
    outcome (schedule_services id [0; 1]%nat "mystery"
               (λ i, retrieve_author_details (λ _ _, Examples.refuse) Examples.store)
               (VInt DEFAULT_CONCUR_REQ) MAX_CONCUR_REQ)
    = Raised e ∧
    exn_cls e = ClsException.
Proof.
  apply (schedule_services_connection_failures_escape id
           (λ _ _ _, Examples.refuse) Examples.store [0; 1]%nat "mystery"
           (VInt DEFAULT_CONCUR_REQ) MAX_CONCUR_REQ).
  - intros l. reflexivity.
  - reflexivity.
  - discriminate.
  - intros i l Hl. eexists. reflexivity.
  - intros i url payload. eexists. split; reflexivity.
Defined.

(** A semaphore without slots: no task ever enters its [with] block and
    the scheduler waits for ever. *)
Example schedule_services_no_slot_blocks :
  outcome (schedule_services id [0; 1]%nat "mystery"
             (λ i, retrieve_author_details (λ _ _, Examples.answer_author "A")
                     Examples.store)
             (VInt DEFAULT_CONCUR_REQ) 0) = Blocked.
Proof. reflexivity. Qed.

(** A negative limit: [asyncio.Semaphore] raises [ValueError] before any
    task is created. *)
Example schedule_services_negative_limit :
  ∃ e, schedule_services id [0; 1]%nat "mystery"
         (λ i, retrieve_author_details (λ _ _, Examples.answer_author "A")
                 Examples.store)
         (VInt DEFAULT_CONCUR_REQ) (-1) = ([], Raised e) ∧
       exn_cls e = ClsValueError.
Proof. eexists. split; reflexivity. Qed.

(** A 404 answer is no not-found outcome: [call_service] raises the
    [TypeError] of the constructor call, which is not [web.HTTPNotFound],
    and the task re-raises it as a plain [Exception]. *)
Example retrieve_author_details_404 :
  ∃ e, outcome (retrieve_author_details (λ _ _, Examples.answer_404)
                  Examples.store 0%nat "mystery" MAX_CONCUR_REQ
                  (VInt DEFAULT_CONCUR_REQ)) = Raised e ∧
       exn_cls e = ClsException ∧
       ∃ e', exn_args e = [OExn e'] ∧ exn_cls e' = ClsTypeError.
Proof. eexists. split; [reflexivity|]. split; [reflexivity|]. eexists. split; reflexivity. Qed.

(** ** BatchRunner: how the scheduler is invoked *)

Lemma call_service_trace_task_events post url data method :
  Forall (λ ev, is_task_event ev = true) (trace (call_service post url data method)).
Proof.
  unfold call_service.
  destruct (String.eqb method "POST"); simpl.
  - destruct (post url data) as [ce|r]; simpl.
    + destruct (isinstance ce ClsClientConnectorError); simpl.
      * destruct (getattr ce "strerror" (Some ce)) as [e|strerror]; simpl;
          [by repeat constructor|].
        destruct (str_add _ strerror ce); simpl; by repeat constructor.
      * destruct (is_Exception (exn_cls ce)); simpl; by repeat constructor.
    + destruct (negb (Z.eqb (resp_status r) 200)); simpl; [by repeat constructor|].
      destruct (resp_json r); simpl; by repeat constructor.
  - constructor.
Qed.

Lemma retrieve_author_details_trace_task_events post h l qry semaphore verbose :
  Forall (λ ev, is_task_event ev = true)
    (trace (retrieve_author_details post h l qry semaphore verbose)).
Proof.
  rewrite retrieve_author_details_trace.
  destruct (request_payload (h l)) as [e|data]; [constructor|].
  destruct (Z.eqb semaphore 0); [constructor|].
  apply Forall_app. split; [apply call_service_trace_task_events|].
  destruct (outcome _); by repeat constructor.
Qed.

Lemma on_FetchError_trace verbose exc :
  Forall (λ ev, ∃ id error_msg, ev = EvDiag id error_msg)
    (trace (on_FetchError verbose exc)).
Proof.
  unfold on_FetchError.
  destruct (getattr exc "id" (Some exc)) as [e|id];
    [rewrite bind_lift_inl; constructor|rewrite bind_lift_inr].
  destruct (error_msg_of exc) as [e|error_msg];
    [rewrite bind_lift_inl; constructor|rewrite bind_lift_inr].
  destruct (truthy verbose && truthy_obj error_msg); simpl;
    repeat constructor; eauto.
Qed.

Lemma tally_loop_trace_Forall (P : event → Prop) verbose arrived :
  (∀ id error_msg, P (EvDiag id error_msg)) →
  Forall (λ future, Forall P (trace future)) arrived →
  ∀ counter, Forall P (trace (tally_loop verbose arrived counter)).
Proof.
  intros HP Hall.
  induction Hall as [|future rest Hf _ IH]; intros counter; [constructor|].
  rewrite tally_loop_trace_cons. apply Forall_app. split; [done|].
  destruct (outcome future) as [exc|res|]; [|apply IH|constructor].
  destruct (isinstance exc ClsFetchError); [|constructor].
  apply Forall_app. split.
  - eapply Forall_impl; [apply on_FetchError_trace|].
    intros ev (id & error_msg & ->). apply HP.
  - destruct (outcome (on_FetchError verbose exc)); [constructor|apply IH|constructor].
Qed.

Lemma Forall_List_filter {A} (P : A → Prop) (f : A → bool) (l : list A) :
  Forall P l → Forall P (List.filter f l).
Proof.
  induction 1 as [|x l Hx _ IH]; simpl; [constructor|].
  destruct (f x); [by constructor|done].
Qed.

(** What a batch started by [run_query_list] does: the semaphore it
    creates has capacity [MAX_CONCUR_REQ] and no progress observer is
    installed. *)
Lemma call_author_many_trace_batch_events order post h records_list qry :
  (∀ l, order l ≡ₚ l) →
  Forall (λ ev, is_batch_event ev = true)
    (trace (call_author_many order post h records_list qry
              (VInt DEFAULT_CONCUR_REQ) MAX_CONCUR_REQ)).
Proof.
  intros Hperm. unfold call_author_many.
  rewrite trace_bind. apply Forall_app. split.
  - rewrite schedule_services_trace. simpl.
    constructor; [done|].
    apply tally_loop_trace_Forall; [done|].
    apply Forall_List_filter. rewrite (Hperm _).
    apply to_do_of_Forall. intros i l _.
    eapply Forall_impl; [apply retrieve_author_details_trace_task_events|].
    by intros [].
  - destruct (outcome _); by repeat constructor.
Qed.

Lemma run_query_list_loop_trace_batch_events w size qs :
  (∀ k l, order w k l ≡ₚ l) →
  ∀ k h next result,
    Forall (λ ev, is_batch_event ev = true)
      (trace (run_query_list_loop w size k qs h next result)).
Proof.
  intros Hperm.
  induction qs as [|qry rest IH]; intros k h next result; [constructor|].
  simpl.
  destruct (search w k qry size) as [e|hits];
    [rewrite bind_lift_inl; constructor|rewrite bind_lift_inr].
  rewrite trace_bind. apply Forall_app. split.
  - apply call_author_many_trace_batch_events, Hperm.
  - destruct (outcome _); [constructor|apply IH|constructor].
Qed.

(** C4: every iteration of [run_query_list] invokes the scheduler with
    [verbose = DEFAULT_CONCUR_REQ], the truthy value 5, and
    [concur_req = MAX_CONCUR_REQ = 1000]; hence every semaphore created
    during the run has capacity 1000, never 5, and the progress observer
    of the non-verbose branch is never installed. *)
Theorem run_query_list_invokes_scheduler_with_5_and_1000
    (w : World) (self : ElasticSearchBookService) :
  (∀ k l, order w k l ≡ₚ l) →
  (∀ k qry rest h next result,
     run_query_list_loop w (size self) k (qry :: rest) h next result =
     hits ← lift (search w k qry (size self));
     (schedule_services (order w k) (seq next (length hits)) qry
        (λ i, retrieve_author_details (post w k i) (alloc h next hits))
        (VInt 5) 1000;;
      ret ());;
     run_query_list_loop w (size self) (S k) rest (alloc h next hits)
       (next + length hits)%nat (result ++ [seq next (length hits)])) ∧
  truthy (VInt DEFAULT_CONCUR_REQ) = true ∧
  ∀ ev, ev ∈ trace (run_query_list w self) →
    (∀ capacity, ev = EvSemaphore capacity →
                 capacity = 1000 ∧ capacity ≠ DEFAULT_CONCUR_REQ) ∧
    (∀ total, ev ≠ EvProgress total).
Proof.
  intros Hperm. split; [done|]. split; [done|].
  intros ev Hev.
  pose proof (run_query_list_loop_trace_batch_events w (size self)
                (query_list self) Hperm 0%nat (λ _, VNone) 0%nat []) as Hall.
  rewrite Forall_forall in Hall. specialize (Hall ev Hev).
  split.
  - intros capacity ->. simpl in Hall. apply Z.eqb_eq in Hall.
    rewrite Hall. done.
  - intros total ->. discriminate.
Qed.

Lemma run_query_list_invokes_scheduler_with_5_and_1000_witness :
  truthy (VInt DEFAULT_CONCUR_REQ) = true ∧
  EvSemaphore 1000 ∈ trace (run_query_list Examples.two_hits_world Examples.two_terms) ∧
  ∀ ev, ev ∈ trace (run_query_list Examples.two_hits_world Examples.two_terms) →
    (∀ capacity, ev = EvSemaphore capacity →
                 capacity = 1000 ∧ capacity ≠ DEFAULT_CONCUR_REQ) ∧
    (∀ total, ev ≠ EvProgress total).
Proof.
  destruct (run_query_list_invokes_scheduler_with_5_and_1000
              Examples.two_hits_world Examples.two_terms) as (_ & Htruthy & Hevents).
  - intros k l. simpl. apply reverse_Permutation.
  - split; [exact Htruthy|]. split; [|exact Hevents].
    apply list_elem_of_here.
Defined.

(** In the run over two terms, the semaphores created are two, both of
    capacity 1000. *)
Example run_query_list_two_terms_semaphores :
  List.filter (λ ev, match ev with EvSemaphore _ => true | _ => false end)
    (trace (run_query_list Examples.two_hits_world Examples.two_terms))
  = [EvSemaphore 1000; EvSemaphore 1000].
Proof. reflexivity. Qed.

(** ** The store: allocation and the executor *)

Lemma alloc_lookup_lt hits : ∀ h next l,
  (l < next)%nat → alloc h next hits l = h l.
Proof.
  induction hits as [|v hits IH]; intros h next l Hl; simpl; [done|].
  rewrite IH by lia. apply fn_lookup_insert_ne. lia.
Qed.

Lemma alloc_lookup hits : ∀ h next j r,
  hits !! j = Some r → alloc h next hits (next + j)%nat = r.
Proof.
  induction hits as [|v hits IH]; intros h next j r Hj; [done|].
  destruct j as [|j]; simpl in *.
  - injection Hj as ->. rewrite alloc_lookup_lt by lia.
    rewrite Nat.add_0_r. apply fn_lookup_insert.
  - replace (next + S j)%nat with (S next + j)%nat by lia. by apply IH.
Qed.

Lemma run_job_other j h l :
  job_target j ≠ l → run_job j h l = h l.
Proof.
  intros Hne. unfold run_job.
  destruct (add_additional_data_to_record _ _ _); [done|].
  by apply fn_lookup_insert_ne.
Qed.

Lemma run_job_target j h :
  run_job j h (job_target j) =
  match add_additional_data_to_record (job_data j) (job_qry j) (h (job_target j)) with
  | inr book_details => book_details
  | inl _ => h (job_target j)
  end.
Proof.
  unfold run_job.
  destruct (add_additional_data_to_record _ _ _); [done|].
  apply fn_lookup_insert.
Qed.

Lemma run_jobs_frame js : ∀ h l,
  l ∉ job_target <$> js → run_jobs js h l = h l.
Proof.
  induction js as [|j js IH]; intros h l Hl; [done|].
  rewrite fmap_cons, not_elem_of_cons in Hl. destruct Hl as [Hj Hjs].
  unfold run_jobs in *. simpl. rewrite IH by done.
  by apply run_job_other.
Qed.

(** When no two jobs aim at the same record, a record is after the jobs
    either as before or as the one job aimed at it made it. *)
Lemma run_jobs_NoDup js : ∀ h l,
  NoDup (job_target <$> js) →
  run_jobs js h l = h l ∨
  ∃ j, j ∈ js ∧ job_target j = l ∧
       add_additional_data_to_record (job_data j) (job_qry j) (h l)
       = inr (run_jobs js h l).
Proof.
  induction js as [|j js IH]; intros h l Hnd; [by left|].
  rewrite fmap_cons in Hnd. apply NoDup_cons in Hnd as [Hj Hnd].
  change (run_jobs (j :: js) h) with (run_jobs js (run_job j h)).
  destruct (decide (job_target j = l)) as [<-|Hne].
  - rewrite run_jobs_frame by done. rewrite run_job_target.
    destruct (add_additional_data_to_record _ _ _) as [e|v] eqn:Hadd; [by left|].
    right. exists j. split; [by left|]. by split.
  - destruct (IH (run_job j h) l Hnd) as [Heq|(j' & Hin & Ht & Hadd)].
    + left. rewrite Heq. by apply run_job_other.
    + right. exists j'. split; [by right|]. split; [done|].
      by rewrite run_job_other in Hadd.
Qed.

(** ** The merges a batch submits *)

Lemma jobs_of_app t1 t2 : jobs_of (t1 ++ t2) = jobs_of t1 ++ jobs_of t2.
Proof. apply omap_app. Qed.

Lemma call_service_jobs post url data method :
  jobs_of (trace (call_service post url data method)) = [].
Proof.
  unfold call_service.
  destruct (String.eqb method "POST"); simpl; [|done].
  destruct (post url data) as [ce|r]; simpl.
  - destruct (isinstance ce ClsClientConnectorError); simpl.
    + destruct (getattr ce "strerror" (Some ce)) as [e|strerror]; simpl; [done|].
      by destruct (str_add _ strerror ce).
    + by destruct (is_Exception (exn_cls ce)).
  - destruct (negb (Z.eqb (resp_status r) 200)); simpl; [done|].
    by destruct (resp_json r).
Qed.

(** A task submits one merge, for its own record and with the body of
    the response, exactly when its call returns; otherwise none. *)
Lemma retrieve_author_details_jobs post h l qry semaphore verbose :
  future_jobs (retrieve_author_details post h l qry semaphore verbose) =
  match request_payload (h l) with
  | inl _ => []
  | inr payload =>
      if Z.eqb semaphore 0 then []
      else match outcome (call_service post AWS_AUTHOR_API payload "POST") with
           | Returned d => [MkJob d qry l]
           | _ => []
           end
  end.
Proof.
  unfold future_jobs. rewrite retrieve_author_details_trace.
  destruct (request_payload (h l)) as [e|payload]; [done|].
  destruct (Z.eqb semaphore 0); [done|].
  rewrite jobs_of_app, call_service_jobs.
  by destruct (outcome _).
Qed.

Lemma on_FetchError_jobs verbose exc :
  jobs_of (trace (on_FetchError verbose exc)) = [].
Proof.
  pose proof (on_FetchError_trace verbose exc) as H.
  induction H as [|ev t (id & msg & ->) _ IH]; [done|]. simpl. exact IH.
Qed.

(** A loop that returns has consumed every future that arrived, and the
    merges in its trace are theirs, in arrival order. *)
Lemma tally_loop_jobs verbose arrived : ∀ counter tally,
  outcome (tally_loop verbose arrived counter) = Returned tally →
  jobs_of (trace (tally_loop verbose arrived counter)) = arrived ≫= future_jobs.
Proof.
  induction arrived as [|future rest IH]; intros counter tally; [done|].
  rewrite tally_loop_outcome_cons, tally_loop_trace_cons, bind_cons, jobs_of_app.
  intros H. f_equal.
  destruct (outcome future) as [exc|res|]; [|by eapply IH|done].
  destruct (isinstance exc ClsFetchError); [|done].
  rewrite jobs_of_app, on_FetchError_jobs. simpl.
  destruct (outcome (on_FetchError verbose exc)); [done|by eapply IH|done].
Qed.

Lemma schedule_services_jobs order records_list qry ncs verbose concur_req tally :
  (∀ l, order l ≡ₚ l) →
  outcome (schedule_services order records_list qry ncs verbose concur_req)
  = Returned tally →
  jobs_of (trace (schedule_services order records_list qry ncs verbose concur_req))
  ≡ₚ to_do_of records_list qry ncs verbose concur_req ≫= future_jobs.
Proof.
  intros Hperm. rewrite schedule_services_outcome, schedule_services_trace.
  destruct (Z.ltb concur_req 0); [done|]. simpl.
  destruct (outcome (tally_loop _ _ _)) as [|counter|] eqn:Hloop; try done.
  destruct (forallb _ _) eqn:Hall; [|done]. intros _.
  rewrite jobs_of_app.
  replace (jobs_of (if truthy verbose then [] else [EvProgress (length records_list)]))
    with (@nil job) by (by destruct (truthy verbose)).
  simpl. rewrite (tally_loop_jobs _ _ _ _ Hloop).
  by rewrite (filter_completes_all _ Hall), (Hperm _).
Qed.

(** The merges that the tasks of a batch submit aim at records of the
    batch, at most one at each, and carry the query term of the batch. *)
Lemma to_do_of_jobs (f : nat → oid → M Result) (qry : string) records_list :
  (∀ i l, future_jobs (f i l) = [] ∨ ∃ d, future_jobs (f i l) = [MkJob d qry l]) →
  job_target <$> (imap f records_list ≫= future_jobs) `sublist_of` records_list ∧
  Forall (λ j, job_qry j = qry) (imap f records_list ≫= future_jobs).
Proof.
  revert f. induction records_list as [|l records IH]; intros f Hf.
  - split; constructor.
  - rewrite imap_cons, bind_cons, fmap_app.
    destruct (IH (f ∘ S)) as [IH1 IH2]; [intros i l'; apply Hf|].
    split.
    + change (l :: records) with ([l] ++ records).
      apply sublist_app; [|done].
      destruct (Hf 0%nat l) as [->|[d ->]]; simpl; [apply sublist_nil_l|done].
    + apply Forall_app. split; [|done].
      destruct (Hf 0%nat l) as [->|[d ->]]; by repeat constructor.
Qed.

Lemma call_author_many_jobs order post h records_list qry verbose concur_req :
  (∀ l, order l ≡ₚ l) →
  outcome (call_author_many order post h records_list qry verbose concur_req)
  = Returned () →
  job_target <$> jobs_of (trace (call_author_many order post h records_list qry
                                   verbose concur_req)) ⊆+ records_list ∧
  Forall (λ j, job_qry j = qry)
    (jobs_of (trace (call_author_many order post h records_list qry
                       verbose concur_req))).
Proof.
  intros Hperm. unfold call_author_many.
  rewrite outcome_bind, trace_bind.
  destruct (outcome (schedule_services _ _ _ _ _ _)) as [|tally|] eqn:Hout;
    try done.
  intros _. simpl. rewrite app_nil_r.
  pose proof (schedule_services_jobs _ _ _ _ _ _ _ Hperm Hout) as Hjobs.
  destruct (to_do_of_jobs (λ i l, retrieve_author_details (post i) h l qry
                                    concur_req verbose) qry records_list)
    as [Hsub Hqry].
  { intros i l. rewrite retrieve_author_details_jobs.
    destruct (request_payload (h l)); [by left|].
    destruct (Z.eqb concur_req 0); [by left|].
    destruct (outcome (call_service _ _ _ _)); eauto. }
  unfold to_do_of in Hjobs. split.
  - rewrite Hjobs. by apply sublist_submseteq.
  - by rewrite Hjobs.
Qed.

(** ** BatchRunner: the output list *)

Lemma run_query_list_loop_batches w size :
  (∀ k l, order w k l ≡ₚ l) →
  ∀ qs k h next result t res hf,
    run_query_list_loop w size k qs h next result = (t, Returned (res, hf)) →
    ∃ bs, res = result ++ bs ∧
          (∀ l, (l < next)%nat → hf l = h l) ∧
          batches_ok w size hf k next qs bs (jobs_of t).
Proof.
  intros Hperm.
  induction qs as [|qry rest IH]; intros k h next result t res hf; simpl.
  - intros [= <- <- <-]. exists []. rewrite app_nil_r.
    split; [done|]. split; [done|]. constructor.
  - destruct (search w k qry size) as [e|hits] eqn:Hsearch;
      [by rewrite bind_lift_inl|rewrite bind_lift_inr].
    intros (t1 & [] & t2 & Hbatch & Hrest & ->)%bind_Returned_inv.
    apply IH in Hrest as (bs & -> & Hframe & Hbs).
    destruct (call_author_many_jobs (order w k) (post w k) (alloc h next hits)
                (seq next (length hits)) qry
                (VInt DEFAULT_CONCUR_REQ) MAX_CONCUR_REQ (Hperm k))
      as [Htargets Hqry]; [by rewrite Hbatch|].
    rewrite Hbatch in Htargets, Hqry. simpl in Htargets, Hqry.
    exists (seq next (length hits) :: bs).
    split; [by rewrite <- app_assoc|]. split.
    + intros l Hl. rewrite Hframe by lia. by apply alloc_lookup_lt.
    + rewrite jobs_of_app. econstructor; try done.
      intros j r Hj. rewrite Hframe.
      * by apply alloc_lookup.
      * apply lookup_lt_Some in Hj. lia.
Qed.

Lemma batches_ok_length w size hf k next qs bs js :
  batches_ok w size hf k next qs bs js → length bs = length qs.
Proof. induction 1; simpl; congruence. Qed.

Lemma batches_ok_targets w size hf k next qs bs js :
  batches_ok w size hf k next qs bs js →
  ∃ total, job_target <$> js ⊆+ seq next total.
Proof.
  induction 1 as [|k next qry qs hits bs js1 js2 _ _ _ Hsub _ [total IH]].
  - exists 0%nat. done.
  - exists (length hits + total)%nat.
    rewrite fmap_app, seq_app. by apply submseteq_app.
Qed.

Lemma batches_ok_lookup w size hf k next qs bs js :
  batches_ok w size hf k next qs bs js →
  ∀ i qry, qs !! i = Some qry →
    ∃ hits n,
      (next ≤ n)%nat ∧
      search w (k + i)%nat qry size = inr hits ∧
      bs !! i = Some (seq n (length hits)) ∧
      (∀ j r, hits !! j = Some r → hf (n + j)%nat = r) ∧
      (∀ job, job ∈ js →
              (n ≤ job_target job < n + length hits)%nat → job_qry job = qry).
Proof.
  induction 1 as [|k next qry0 qs hits bs js1 js2 Hs Hhf Hq Hsub Hrest IH];
    intros i qry Hi; [done|].
  pose proof (batches_ok_targets _ _ _ _ _ _ _ _ Hrest) as [total Htot].
  assert (∀ job, job ∈ js1 → (next ≤ job_target job < next + length hits)%nat)
    as Hin1.
  { intros job Hjob.
    assert (job_target job ∈ seq next (length hits)) as Hin.
    { eapply elem_of_submseteq; [|done]. by apply list_elem_of_fmap_2. }
    apply elem_of_seq in Hin. lia. }
  assert (∀ job, job ∈ js2 → (next + length hits ≤ job_target job)%nat) as Hin2.
  { intros job Hjob.
    assert (job_target job ∈ seq (next + length hits) total) as Hin.
    { eapply elem_of_submseteq; [|done]. by apply list_elem_of_fmap_2. }
    apply elem_of_seq in Hin. lia. }
  destruct i as [|i]; simpl in Hi.
  - injection Hi as <-. exists hits, next. rewrite Nat.add_0_r.
    split; [done|]. split; [done|]. split; [done|]. split; [done|].
    intros job [Hjob|Hjob]%elem_of_app Hrange.
    + rewrite Forall_forall in Hq. by apply Hq.
    + apply Hin2 in Hjob. lia.
  - destruct (IH i qry Hi) as (hits' & n & Hn & Hs' & Hb & Hhf' & Hq').
    exists hits', n. replace (k + S i)%nat with (S k + i)%nat by lia.
    split; [lia|]. split; [done|]. split; [done|]. split; [done|].
    intros job [Hjob|Hjob]%elem_of_app Hrange; [|by apply Hq'].
    apply Hin1 in Hjob. lia.
Qed.

Lemma submseteq_NoDup {A} (l k : list A) : l ⊆+ k → NoDup k → NoDup l.
Proof.
  intros [k' Hk]%submseteq_Permutation Hnd.
  rewrite Hk in Hnd. by apply NoDup_app in Hnd as [? _].
Qed.

(** The shape of a returned output list, read when the executor has run
    the part [js] of the submitted merges. *)
Lemma run_query_list_output_shape
    (w : World) (self : ElasticSearchBookService)
    (t : list event) (result : list (list oid)) (hf : heap) (js : list job) :
  (∀ k l, order w k l ≡ₚ l) →
  run_query_list w self = (t, Returned (result, hf)) →
  js ⊆+ jobs_of t →
  length (deref (run_jobs js hf) result) = length (query_list self) ∧
  ∀ k qry, query_list self !! k = Some qry →
    ∃ hits recs,
      search w k qry (size self) = inr hits ∧
      deref (run_jobs js hf) result !! k = Some recs ∧
      length recs = length hits ∧
      ∀ j r, hits !! j = Some r →
        ∃ r', recs !! j = Some r' ∧
              (r' = r ∨
               ∃ data, add_additional_data_to_record data qry r = inr r').
Proof.
  intros Hperm Hrun Hjs. unfold run_query_list in Hrun.
  apply (run_query_list_loop_batches w (size self) Hperm) in Hrun
    as (bs & -> & _ & Hbs).
  rewrite app_nil_l. unfold deref. rewrite length_fmap.
  split; [by eapply batches_ok_length|].
  assert (NoDup (job_target <$> js)) as Hnd.
  { destruct (batches_ok_targets _ _ _ _ _ _ _ _ Hbs) as [total Htot].
    eapply submseteq_NoDup; [|apply (NoDup_seq 0 total)].
    etrans; [|done]. by apply fmap_submseteq. }
  intros k qry Hk.
  destruct (batches_ok_lookup _ _ _ _ _ _ _ _ Hbs k qry Hk)
    as (hits & n & _ & Hsearch & Hb & Hhf & Hq).
  exists hits, (run_jobs js hf <$> seq n (length hits)).
  unfold oid in *.
  split; [done|]. split; [by rewrite list_lookup_fmap, Hb|].
  split; [by rewrite length_fmap, length_seq|].
  intros j r Hj. exists (run_jobs js hf (n + j)%nat).
  split.
  { rewrite list_lookup_fmap.
    assert (seq n (length hits) !! j = Some (n + j)%nat) as ->; [|done].
    apply lookup_seq. split; [done|]. by eapply lookup_lt_Some. }
  destruct (run_jobs_NoDup js hf (n + j)%nat Hnd) as [Heq|(job & Hin & Ht & Hadd)].
  - left. rewrite Heq. by apply Hhf.
  - right. exists (job_data job).
    rewrite (Hhf j r Hj) in Hadd.
    rewrite <- (Hq job); [done| |].
    + by eapply elem_of_submseteq.
    + apply lookup_lt_Some in Hj. lia.
Qed.

(** A task whose record has an id and whose request is answered with
    200 and a JSON body returns the status ok. *)
Lemma retrieve_author_details_ok post h l qry semaphore verbose payload r d :
  request_payload (h l) = inr payload →
  semaphore ≠ 0 →
  post AWS_AUTHOR_API payload = PostReturns r →
  resp_status r = 200 →
  resp_json r = inr d →
  outcome (retrieve_author_details post h l qry semaphore verbose)
  = Returned (MkResult HTTPStatus.ok l).
Proof.
  intros Hpay Hsem Hpost Hst Hjson.
  rewrite retrieve_author_details_outcome, Hpay.
  apply Z.eqb_neq in Hsem. rewrite Hsem.
  by rewrite (call_service_response _ _ _ _ Hpost), Hst, Hjson.
Qed.

Lemma run_query_list_loop_returns w size :
  (∀ k l, order w k l ≡ₚ l) →
  (∀ k qry, ∃ hits, search w k qry size = inr hits ∧
                    Forall (λ r, ∃ payload, request_payload r = inr payload) hits) →
  (∀ k i url payload, ∃ r d, post w k i url payload = PostReturns r ∧
                             resp_status r = 200 ∧ resp_json r = inr d) →
  ∀ qs k h next result,
    ∃ res hf,
      outcome (run_query_list_loop w size k qs h next result) = Returned (res, hf).
Proof.
  intros Hperm Hsearch Hpost.
  induction qs as [|qry rest IH]; intros k h next result; simpl; [eauto|].
  destruct (Hsearch k qry) as (hits & -> & Hhits).
  rewrite bind_lift_inr, outcome_bind.
  assert (outcome (call_author_many (order w k) (post w k) (alloc h next hits)
                     (seq next (length hits)) qry
                     (VInt DEFAULT_CONCUR_REQ) MAX_CONCUR_REQ) = Returned ())
    as ->; [|apply IH].
  unfold call_author_many. rewrite outcome_bind.
  destruct (schedule_services_returns (order w k) (seq next (length hits)) qry
              (λ i, retrieve_author_details (post w k i) (alloc h next hits))
              (VInt DEFAULT_CONCUR_REQ) MAX_CONCUR_REQ (Hperm k))
    as [tally ->]; [done| |done].
  intros i l [-> Hi]%lookup_seq.
  destruct (lookup_lt_is_Some_2 hits i Hi) as [r Hr].
  rewrite Forall_lookup in Hhits. destruct (Hhits i r Hr) as [payload Hpay].
  destruct (Hpost k i AWS_AUTHOR_API payload) as (resp & d & Hp & Hst & Hjson).
  eexists. eapply retrieve_author_details_ok; try done.
  by rewrite (alloc_lookup _ _ _ _ _ Hr).
Qed.

(** C9: the list that [run_query_list] returns has one element per query
    term, in the order of the terms: the element at index [k] is the list
    of the record objects that the search for the k-th term produced, in
    the search's order, where each record reads as the search gave it or
    as a merge with that term enriched it, whatever part [js] of the
    submitted merges the executor has run so far.  And the run does
    return such a list when every search returns hits that have an id and
    every request is answered with 200 and a JSON body. *)
Theorem run_query_list_one_list_per_term_in_order
    (w : World) (self : ElasticSearchBookService) :
  (∀ k l, order w k l ≡ₚ l) →
  (∀ t result hf js,
     run_query_list w self = (t, Returned (result, hf)) →
     js ⊆+ jobs_of t →
     length (deref (run_jobs js hf) result) = length (query_list self) ∧
     ∀ k qry, query_list self !! k = Some qry →
       ∃ hits recs,
         search w k qry (size self) = inr hits ∧
         deref (run_jobs js hf) result !! k = Some recs ∧
         length recs = length hits ∧
         ∀ j r, hits !! j = Some r →
           ∃ r', recs !! j = Some r' ∧
                 (r' = r ∨
                  ∃ data, add_additional_data_to_record data qry r = inr r')) ∧
  ((∀ k qry, ∃ hits, search w k qry (size self) = inr hits ∧
                     Forall (λ r, ∃ payload, request_payload r = inr payload) hits) →
   (∀ k i url payload, ∃ r d, post w k i url payload = PostReturns r ∧
                              resp_status r = 200 ∧ resp_json r = inr d) →
   ∃ result hf, outcome (run_query_list w self) = Returned (result, hf)).
Proof.
  intros Hperm. split.
  - intros t result hf js Hrun Hjs.
    by apply (run_query_list_output_shape w self t result hf js).
  - intros Hsearch Hpost. by apply run_query_list_loop_returns.
Qed.

Lemma run_query_list_one_list_per_term_in_order_witness :
  (length (deref (run_jobs (jobs_of (trace Examples.two_terms_run))
                    Examples.two_terms_heap) Examples.two_terms_result)
   = length (query_list Examples.two_terms) ∧
   ∀ k qry, query_list Examples.two_terms !! k = Some qry →
     ∃ hits recs,
       search Examples.two_hits_world k qry (size Examples.two_terms) = inr hits ∧
       deref (run_jobs (jobs_of (trace Examples.two_terms_run))
                Examples.two_terms_heap) Examples.two_terms_result !! k
       = Some recs ∧
       length recs = length hits ∧
       ∀ j r, hits !! j = Some r →
         ∃ r', recs !! j = Some r' ∧
               (r' = r ∨
                ∃ data, add_additional_data_to_record data qry r = inr r')) ∧
  (∃ result hf, outcome Examples.two_terms_run = Returned (result, hf)).
Proof.
  destruct (run_query_list_one_list_per_term_in_order
              Examples.two_hits_world Examples.two_terms) as [Hshape Hreturns].
  - intros k l. simpl. apply reverse_Permutation.
  - split.
    + apply (Hshape (trace Examples.two_terms_run) Examples.two_terms_result
               Examples.two_terms_heap).
      * reflexivity.
      * reflexivity.
    + apply Hreturns.
      * intros k qry. eexists. split; [reflexivity|].
        repeat constructor; eexists; reflexivity.
      * intros k i url payload. eexists _, _. split; [reflexivity|].
        split; reflexivity.
Defined.

(** The scenario of two terms with two hits each: the output has two
    elements of two records each, in the order of the terms, and once the
    executor has run every merge each record carries the author and its
    term. *)
Example run_query_list_two_terms :
  ∃ t result hf,
    run_query_list Examples.two_hits_world Examples.two_terms
    = (t, Returned (result, hf)) ∧
    deref hf result =
      [[Examples.hit 0 "mystery"; Examples.hit 1 "mystery"];
       [Examples.hit 2 "romance"; Examples.hit 3 "romance"]] ∧
    deref (run_jobs (jobs_of t) hf) result =
      [[Examples.enriched_hit 0 "mystery" "mystery" "Agatha Christie";
        Examples.enriched_hit 1 "mystery" "mystery" "Agatha Christie"];
       [Examples.enriched_hit 2 "romance" "romance" "Agatha Christie";
        Examples.enriched_hit 3 "romance" "romance" "Agatha Christie"]].
Proof.
  eexists _, _, _. split; [reflexivity|]. split; by vm_compute.
Qed.

(** ** Enrichment of the records of a batch *)

Lemma add_additional_data_to_record_inr data qry d source author :
  getitem data "author" = inr author →
  d !! "_source" = Some (VDict source) →
  add_additional_data_to_record data qry (VDict d) =
  inr (VDict (<["_source" :=
                 VDict (<["query" := VStr qry]> (<["author" := author]> source))]> d)).
Proof.
  intros Ha Hs. unfold add_additional_data_to_record.
  rewrite Ha. simpl. by rewrite Hs.
Qed.



(** A loop that returns was fed futures that return or raise a
    [FetchError]. *)
Lemma tally_loop_Returned_inv verbose arrived : ∀ counter tally,
  outcome (tally_loop verbose arrived counter) = Returned tally →
  Forall (λ future, match outcome future with
                    | Returned _ => True
                    | Raised e => isinstance e ClsFetchError = true
                    | Blocked => False
                    end) arrived.
Proof.
  induction arrived as [|future rest IH]; intros counter tally; [constructor|].
  rewrite tally_loop_outcome_cons. intros H. constructor.
  - destruct (outcome future) as [exc| |]; [|done|done].
    by destruct (isinstance exc ClsFetchError).
  - destruct (outcome future) as [exc|res|]; [|by eapply IH|done].
    destruct (isinstance exc ClsFetchError); [|done].
    destruct (outcome (on_FetchError verbose exc)); [done|by eapply IH|done].
Qed.

(** In a batch that returns a tally, every task of
    [retrieve_author_details] has returned, with status ok or
    not_found. *)
Lemma schedule_services_tasks_returned
    order post h records_list qry verbose concur_req tally i l :
  (∀ l, order l ≡ₚ l) →
  outcome (schedule_services order records_list qry
             (λ i, retrieve_author_details (post i) h) verbose concur_req)
  = Returned tally →
  records_list !! i = Some l →
  ∃ st, outcome (retrieve_author_details (post i) h l qry concur_req verbose)
        = Returned (MkResult st l) ∧ st ≠ HTTPStatus.error.
Proof.
  intros Hperm. rewrite schedule_services_outcome.
  destruct (Z.ltb concur_req 0); [done|]. simpl.
  destruct (outcome (tally_loop _ _ _)) as [|counter|] eqn:Hloop; try done.
  destruct (forallb _ _) eqn:Hall; [|done]. intros _ Hl.
  rewrite (filter_completes_all _ Hall) in Hloop.
  apply tally_loop_Returned_inv in Hloop. rewrite (Hperm _) in Hloop.
  rewrite Forall_lookup in Hloop.
  specialize (Hloop i (retrieve_author_details (post i) h l qry concur_req verbose)).
  unfold to_do_of in Hloop. rewrite list_lookup_imap, Hl in Hloop.
  specialize (Hloop eq_refl).
  destruct (outcome (retrieve_author_details _ _ _ _ _ _)) as [e|res|] eqn:Hout;
    [|clear Hloop|done].
  - apply retrieve_author_details_raises in Hout as [Hpay|[Hcls|Hex]].
    + unfold request_payload, getitem in Hpay.
      repeat (case_match; simplify_eq/=); done.
    + unfold isinstance in Hloop. by rewrite Hcls in Hloop.
    + by rewrite (isinstance_not_Exception _ _ Hex) in Hloop.
  - rewrite retrieve_author_details_outcome in Hout.
    destruct (request_payload (h l)); [done|].
    destruct (Z.eqb concur_req 0); [done|].
    destruct (outcome (call_service _ _ _ _)) as [exc|d|]; [|by simplify_eq; eauto|done].
    destruct (isinstance exc ClsHTTPNotFound); [by simplify_eq; eauto|].
    by destruct (is_Exception (exn_cls exc)).
Qed.






(** Outside that contract the status ok promises nothing: a call answered
    with 200 and the body [{}] is tallied ok, its merge is submitted, and
    the executor's run of the merge raises [KeyError] and leaves the
    record as it was, without [author] and without [query]. *)
Example schedule_services_ok_record_without_fields :
  let run := schedule_services id [0%nat] "mystery"
               (λ i, retrieve_author_details (λ _ _, Examples.answer_empty_object)
                       Examples.store)
               (VInt DEFAULT_CONCUR_REQ) MAX_CONCUR_REQ in
  ∃ tally,
    outcome run = Returned tally ∧
    counter_get tally HTTPStatus.ok = 1%nat ∧
    jobs_of (trace run) = [MkJob (VDict ∅) "mystery" 0%nat] ∧
    run_jobs (jobs_of (trace run)) Examples.store 0%nat = Examples.store 0%nat ∧
    ∃ source,
      getitem (run_jobs (jobs_of (trace run)) Examples.store 0%nat) "_source"
      = inr (VDict source) ∧
      source !! "author" = None ∧ source !! "query" = None.
Proof.
  eexists. split; [reflexivity|]. split; [by vm_compute|].
  split; [reflexivity|]. split; [reflexivity|].
  eexists. split; [reflexivity|]. split; reflexivity.
Qed.

(** The scenario of the records A, B, C once the executor has run the
    merges: A and C carry the author and the term, B is as it was. *)
Example schedule_services_A_B_C_records :
  let run := schedule_services id [0; 1; 2]%nat "mystery"
               (λ i, retrieve_author_details (Examples.answers_A_B_C i) Examples.store)
               (VInt DEFAULT_CONCUR_REQ) 2 in
  run_jobs (jobs_of (trace run)) Examples.store <$> [0; 1; 2]%nat
  = [Examples.enriched_hit 0 "a mystery" "mystery" "Agatha Christie";
     Examples.hit 1 "a mystery";
     Examples.enriched_hit 2 "a mystery" "mystery" "Agatha Christie"].
Proof. by vm_compute. Qed.

(** ** The tasks under the event loop: the semaphore *)

Module EventLoopFacts.
Import EventLoop.

Lemma in_flight_cons p ps :
  in_flight (p :: ps) = (Nat.b2n (is_InFlight p) + in_flight ps)%nat.
Proof. unfold in_flight. simpl. by destruct (is_InFlight p). Qed.

(** Replacing the phase of one task moves the count by that task alone. *)
Lemma in_flight_insert ps : ∀ i p p',
  ps !! i = Some p →
  (in_flight (<[i := p']> ps) + Nat.b2n (is_InFlight p))%nat
  = (in_flight ps + Nat.b2n (is_InFlight p'))%nat.
Proof.
  induction ps as [|q ps IH]; intros i p p' Hi; [done|].
  destruct i as [|i]; simpl in *.
  - injection Hi as ->. rewrite !in_flight_cons. lia.
  - rewrite !in_flight_cons. specialize (IH i p p' Hi). lia.
Qed.

Lemma occurrences_app ev l1 l2 :
  occurrences ev (l1 ++ l2) = (occurrences ev l1 + occurrences ev l2)%nat.
Proof. unfold occurrences. by rewrite List.filter_app, length_app. Qed.

Lemma occurrences_singleton ev ev' :
  occurrences ev [ev'] = if decide (ev' = ev) then 1%nat else 0%nat.
Proof.
  unfold occurrences. simpl. unfold bool_decide.
  by destruct (decide_rel eq ev' ev); destruct (decide (ev' = ev)).
Qed.

Section Batch.
Variable post : nat → transport.
Variable h : heap.
Variable records_list : list oid.
Variable qry : string.
Variable semaphore : Z.

Lemma in_flight_init :
  in_flight (tasks (init records_list semaphore)) = 0%nat.
Proof.
  simpl. induction (length records_list) as [|n IHn]; [done|].
  simpl. by rewrite in_flight_cons, IHn.
Qed.

(** The value of the semaphore and the requests in flight add up to the
    capacity. *)
Lemma reachable_sem_value σ :
  reachable post h records_list qry semaphore σ →
  sem_value σ = (semaphore - Z.of_nat (in_flight (tasks σ)))%Z.
Proof.
  induction 1 as [|σ σ' _ IH Hstep].
  - rewrite in_flight_init. simpl. lia.
  - destruct Hstep as [σ i l e Hi _ _|σ i l payload Hi _ _
                      |σ i payload Hi Hpos|σ i l payload Hi _]; simpl.
    + pose proof (in_flight_insert (tasks σ) i _ (Finished (raise e)) Hi).
      simpl in *. lia.
    + pose proof (in_flight_insert (tasks σ) i _ (Waiting payload) Hi).
      simpl in *. lia.
    + pose proof (in_flight_insert (tasks σ) i _ (InFlight payload) Hi).
      simpl in *. lia.
    + pose proof (in_flight_insert (tasks σ) i _
                    (Finished (classify_call l qry
                                 (call_service (post i) AWS_AUTHOR_API payload "POST")))
                    Hi).
      simpl in *. lia.
Qed.

(** The semaphore's value never drops below zero. *)
Lemma reachable_sem_value_nonneg σ :
  (0 ≤ semaphore)%Z →
  reachable post h records_list qry semaphore σ →
  (0 ≤ sem_value σ)%Z.
Proof.
  intros Hsem. induction 1 as [|σ σ' _ IH Hstep]; [done|].
  destruct Hstep; simpl; lia.
Qed.

Ltac discipline_step IH Hi i :=
  let j := fresh "j" in
  intros j; unfold slot_discipline in *; simpl;
  destruct (decide (j = i)) as [->|?];
  [ rewrite list_lookup_insert_eq by (eapply lookup_lt_Some; exact Hi);
    specialize (IH i); rewrite Hi in IH
  | rewrite list_lookup_insert_ne by done; specialize (IH j) ];
  rewrite ?occurrences_app, ?occurrences_singleton;
  repeat case_decide; try congruence; rewrite ?Nat.add_0_r; try exact IH;
  try (destruct IH as [-> ->]; split; lia).

(** A task's acquisitions and releases follow its phase. *)
Lemma reachable_slot_discipline σ :
  reachable post h records_list qry semaphore σ →
  ∀ i, slot_discipline σ i.
Proof.
  induction 1 as [|σ σ' _ IH Hstep].
  - intros i. unfold slot_discipline. simpl.
    destruct (replicate _ _ !! i) as [p|] eqn:Hp; [|done].
    apply lookup_replicate in Hp as [-> _]. done.
  - destruct Hstep as [σ i l e Hi _ _|σ i l payload Hi _ _
                      |σ i payload Hi Hpos|σ i l payload Hi _].
    + discipline_step IH Hi i.
    + discipline_step IH Hi i.
    + discipline_step IH Hi i.
    + discipline_step IH Hi i.
Qed.

(** What a finished task holds is what [retrieve_author_details]
    computes for its record. *)
Lemma reachable_Finished σ (verbose : value) :
  semaphore ≠ 0 →
  reachable post h records_list qry semaphore σ →
  ∀ i, match tasks σ !! i with
       | Some (Finished r) =>
           ∃ l, records_list !! i = Some l ∧
                r = retrieve_author_details (post i) h l qry semaphore verbose
       | Some (Waiting payload) | Some (InFlight payload) =>
           ∃ l, records_list !! i = Some l ∧
                request_payload (h l) = inr payload
       | _ => True
       end.
Proof.
  intros Hsem. apply Z.eqb_neq in Hsem.
  induction 1 as [|σ σ' _ IH Hstep].
  - intros i. simpl.
    destruct (replicate _ _ !! i) as [p|] eqn:Hp; [|done].
    apply lookup_replicate in Hp as [-> _]. done.
  - assert (∀ i p, tasks σ !! i = Some p → (i < length (tasks σ))%nat) as Hlt.
    { intros i p Hi. by eapply lookup_lt_Some. }
    destruct Hstep as [σ i l e Hi Hl Hpay|σ i l payload Hi Hl Hpay
                      |σ i payload Hi Hpos|σ i l payload Hi Hl];
      intros j; simpl; (destruct (decide (j = i)) as [->|?];
        [rewrite list_lookup_insert_eq by eauto
        |rewrite list_lookup_insert_ne by done; apply IH]).
    + exists l. split; [done|].
      unfold retrieve_author_details. by rewrite Hpay, bind_lift_inl.
    + eauto.
    + specialize (IH i). by rewrite Hi in IH.
    + exists l. split; [done|]. specialize (IH i). rewrite Hi in IH.
      destruct IH as (l' & Hl' & Hpay). simplify_eq.
      unfold retrieve_author_details, acquire.
      by rewrite Hpay, bind_lift_inr, Hsem, bind_ret.
Qed.

End Batch.

(** C10: in every state that the tasks of a batch can reach, the number
    of requests in flight is at most [concur_req]; the semaphore's value
    is [concur_req] less the requests in flight; and each task has
    acquired its slot once and not released it while its request is in
    flight, has released as often as it acquired (at most once) when it
    is finished, whatever way its call ended, and has neither acquired
    nor released before. *)
Theorem in_flight_at_most_concur_req
    (post : nat → transport) (h : heap) (records_list : list oid)
    (qry : string) (concur_req semaphore : Z) (σ : state) :
  outcome (Semaphore concur_req) = Returned semaphore →
  reachable post h records_list qry semaphore σ →
  (Z.of_nat (in_flight (tasks σ)) ≤ concur_req)%Z ∧
  sem_value σ = (concur_req - Z.of_nat (in_flight (tasks σ)))%Z ∧
  ∀ i, slot_discipline σ i.
Proof.
  unfold Semaphore. destruct (Z.ltb_spec concur_req 0) as [?|Hpos]; [done|].
  simpl. intros [= <-] Hreach.
  pose proof (reachable_sem_value _ _ _ _ _ _ Hreach) as Hval.
  pose proof (reachable_sem_value_nonneg _ _ _ _ _ _ Hpos Hreach) as Hnn.
  split; [lia|]. split; [done|].
  by apply (reachable_slot_discipline post h records_list qry concur_req).
Qed.

Lemma in_flight_at_most_concur_req_witness :
  (Z.of_nat (in_flight (tasks Examples.one_slot_taken)) ≤ 1)%Z ∧
  sem_value Examples.one_slot_taken
  = (1 - Z.of_nat (in_flight (tasks Examples.one_slot_taken)))%Z ∧
  ∀ i, slot_discipline Examples.one_slot_taken i.
Proof.
  apply (in_flight_at_most_concur_req (λ _ _ _, Examples.refuse) Examples.store
           [0; 1]%nat "mystery" 1 1 Examples.one_slot_taken).
  - reflexivity.
  - apply (reachable_step _ _ _ _ _
             (MkState 1 [Waiting (Examples.payload_of 0);
                         Waiting (Examples.payload_of 1)] [])).
    + apply (reachable_step _ _ _ _ _
               (MkState 1 [Waiting (Examples.payload_of 0); Created] [])).
      * apply (reachable_step _ _ _ _ _ (MkState 1 [Created; Created] [])).
        -- apply reachable_init.
        -- apply (step_start _ _ _ _ (MkState 1 [Created; Created] [])
                    0%nat 0%nat (Examples.payload_of 0)); reflexivity.
      * apply (step_start _ _ _ _
                 (MkState 1 [Waiting (Examples.payload_of 0); Created] [])
                 1%nat 1%nat (Examples.payload_of 1)); reflexivity.
    + apply (step_acquire _ _ _ _
               (MkState 1 [Waiting (Examples.payload_of 0);
                           Waiting (Examples.payload_of 1)] [])
               0%nat (Examples.payload_of 0)); [reflexivity|simpl; lia].
Defined.

End EventLoopFacts.

(** * Further properties *)

(** ** RemoteCaller *)

(** X1: a call with a method other than 'POST' sends nothing: [response]
    stays [None] and reading [response.status] raises [AttributeError]. *)
Theorem call_service_other_method_raises_AttributeError
    (post : transport) (url : string) (data : value) (method : string) :
  method ≠ "POST" →
  ∃ e, call_service post url data method = ([], Raised e) ∧
       exn_cls e = ClsAttributeError.
Proof.
  intros Hm. unfold call_service.
  destruct (String.eqb_spec method "POST") as [->|_]; [done|].
  rewrite bind_ret. eauto.
Qed.

Lemma call_service_other_method_raises_AttributeError_witness :
  ∃ e, call_service (λ _ _, Examples.answer_author "A") AWS_AUTHOR_API
         (Examples.payload_of 1) "GET" = ([], Raised e) ∧
       exn_cls e = ClsAttributeError.
Proof.
  apply (call_service_other_method_raises_AttributeError
           (λ _ _, Examples.answer_author "A") AWS_AUTHOR_API
           (Examples.payload_of 1) "GET").
  discriminate.
Defined.

Lemma call_service_single_attempt_trace post url data :
  posts_of (trace (call_service post url data "POST")) = [(url, data)].
Proof.
  unfold call_service. simpl.
  destruct (post url data) as [ce|r]; simpl.
  - destruct (isinstance ce ClsClientConnectorError); simpl.
    + destruct (getattr ce "strerror" (Some ce)) as [e|strerror]; simpl; [done|].
      by destruct (str_add _ strerror ce).
    + by destruct (is_Exception (exn_cls ce)).
  - destruct (negb (Z.eqb (resp_status r) 200)); simpl; [done|].
    by destruct (resp_json r).
Qed.

(** X2: a POST call makes a single attempt: whatever the transport does,
    the call issues exactly one request, with the url and body it was
    given, and reads the body of the response only when the status is
    200. *)
Theorem call_service_single_attempt
    (post : transport) (url : string) (data : value) :
  trace (call_service post url data "POST") =
  EvPost url data ::
  match post url data with
  | PostReturns r => if Z.eqb (resp_status r) 200 then [EvJson] else []
  | PostRaises _ => []
  end.
Proof.
  destruct (post url data) as [ce|r] eqn:Hp.
  - unfold call_service. simpl. rewrite Hp.
    destruct (isinstance ce ClsClientConnectorError); simpl.
    + destruct (getattr ce "strerror" (Some ce)) as [e|strerror]; simpl; [done|].
      by destruct (str_add _ strerror ce).
    + by destruct (is_Exception (exn_cls ce)).
  - rewrite (call_service_response _ _ _ _ Hp).
    by destruct (Z.eqb (resp_status r) 200).
Qed.

(** X3: an exception of the transport that is no instance of
    [ClientConnectorError], neither of the class itself nor of a class
    that derives from it, is re-raised as [Exception(e)], with the
    original as only argument and as context and without cause, when it
    derives from [Exception]; an exception outside [Exception] passes
    through unchanged. *)
Theorem call_service_wraps_transport_exception
    (post : transport) (url : string) (data : value) (e : exn) :
  post url data = PostRaises e →
  isinstance e ClsClientConnectorError = false →
  call_service post url data "POST" =
  ([EvPost url data],
   Raised (if is_Exception (exn_cls e)
           then MkExn ClsException [OExn e] None (Some e) []
           else e)).
Proof.
  intros Hp Hc. unfold call_service. simpl. rewrite Hp, Hc.
  by destruct (is_Exception (exn_cls e)).
Qed.

Lemma call_service_wraps_transport_exception_witness :
  call_service (λ _ _, PostRaises (MkExn (ClsOther "TimeoutError") [] None None []))
    AWS_AUTHOR_API (Examples.payload_of 1) "POST" =
  ([EvPost AWS_AUTHOR_API (Examples.payload_of 1)],
   Raised (MkExn ClsException
             [OExn (MkExn (ClsOther "TimeoutError") [] None None [])] None
             (Some (MkExn (ClsOther "TimeoutError") [] None None [])) [])).
Proof.
  apply (call_service_wraps_transport_exception
           (λ _ _, PostRaises (MkExn (ClsOther "TimeoutError") [] None None []))
           AWS_AUTHOR_API (Examples.payload_of 1)
           (MkExn (ClsOther "TimeoutError") [] None None [])).
  - reflexivity.
  - reflexivity.
Defined.

(** An instance of a class that derives from [ClientConnectorError] is
    caught by the first clause: the call raises [Exception(message)], not
    [Exception(e)]. *)
Example call_service_proxy_refuses :
  call_service (λ _ _, Examples.proxy_refuses) AWS_AUTHOR_API
    (Examples.payload_of 1) "POST" =
  ([EvPost AWS_AUTHOR_API (Examples.payload_of 1)],
   Raised (Exception (OVal (VStr "call author aws service: Connection refused"))
             (Examples.ClientProxyConnectionError (Some "Connection refused")))).
Proof. reflexivity. Qed.

(** X4: a [ClientConnectorError] whose [strerror] is [None] makes the
    handler itself fail: the concatenation of the message raises
    [TypeError], and that is what leaves the call. *)
Theorem call_service_strerror_None_raises_TypeError
    (post : transport) (url : string) (data : value) (ce : exn) :
  post url data = PostRaises ce →
  exn_cls ce = ClsClientConnectorError →
  getattr ce "strerror" (Some ce) = inr (OVal VNone) →
  ∃ e, call_service post url data "POST" = ([EvPost url data], Raised e) ∧
       exn_cls e = ClsTypeError ∧ exn_context e = Some ce.
Proof.
  intros Hp Hc Hs.
  rewrite (call_service_connector_error _ _ _ _ Hp (isinstance_cls _ _ Hc)), Hs.
  simpl. eauto.
Qed.

Lemma call_service_strerror_None_raises_TypeError_witness :
  ∃ e, call_service (λ _ _, PostRaises (ClientConnectorError None))
         AWS_AUTHOR_API (Examples.payload_of 1) "POST"
       = ([EvPost AWS_AUTHOR_API (Examples.payload_of 1)], Raised e) ∧
       exn_cls e = ClsTypeError ∧
       exn_context e = Some (ClientConnectorError None).
Proof.
  apply (call_service_strerror_None_raises_TypeError
           (λ _ _, PostRaises (ClientConnectorError None))
           AWS_AUTHOR_API (Examples.payload_of 1) (ClientConnectorError None));
    reflexivity.
Defined.

(** X5: a response with status 200 makes the call end as
    [response.json()] ends: it returns the parsed body, or it raises the
    exception of [json()] as it is, not wrapped. *)
Theorem call_service_200_ends_as_json
    (post : transport) (url : string) (data : value) (r : response) :
  post url data = PostReturns r →
  resp_status r = 200 →
  call_service post url data "POST" =
  ([EvPost url data; EvJson],
   match resp_json r with
   | inl e => Raised e
   | inr body => Returned body
   end).
Proof.
  intros Hp Hs. by rewrite (call_service_response _ _ _ _ Hp), Hs.
Qed.

Lemma call_service_200_ends_as_json_witness :
  call_service (λ _ _, Examples.answer_author "Agatha Christie")
    AWS_AUTHOR_API (Examples.payload_of 1) "POST" =
  ([EvPost AWS_AUTHOR_API (Examples.payload_of 1); EvJson],
   Returned (VDict {[ "author" := VStr "Agatha Christie" ]})).
Proof.
  apply (call_service_200_ends_as_json
           (λ _ _, Examples.answer_author "Agatha Christie")
           AWS_AUTHOR_API (Examples.payload_of 1)
           (MkResponse 200 (VStr "OK") (VDict ∅)
              (inr (VDict {[ "author" := VStr "Agatha Christie" ]}))));
    reflexivity.
Defined.

(** ** Enricher *)

(** X6: the merge succeeds exactly when the response is an object with an
    [author] key and the record is an object whose [_source] is an
    object; in every other case it raises a [KeyError] or a [TypeError]. *)
Theorem add_additional_data_to_record_succeeds_iff
    (data : value) (qry : string) (book_details : value) :
  ((∃ book_details', add_additional_data_to_record data qry book_details
                     = inr book_details') ↔
   (∃ author d source,
      getitem data "author" = inr author ∧
      book_details = VDict d ∧ d !! "_source" = Some (VDict source))) ∧
  (∀ e, add_additional_data_to_record data qry book_details = inl e →
        exn_cls e = ClsKeyError ∨ exn_cls e = ClsTypeError).
Proof.
  split; [split|].
  - intros [bd' Hbd].
    pose proof (add_additional_data_to_record_cases data qry book_details) as H.
    rewrite Hbd in H. destruct H as (author & d & source & ? & ? & ? & _).
    eauto 10.
  - intros (author & d & source & Ha & -> & Hs).
    rewrite (add_additional_data_to_record_inr _ _ _ _ _ Ha Hs). eauto.
  - intros e. unfold add_additional_data_to_record, getitem, setitem.
    repeat (case_match; simplify_eq/=); intros; simplify_eq/=; eauto.
Qed.

(** X7: the merge is idempotent: applied to its own result with the same
    response and term, it returns that result again. *)
Theorem add_additional_data_to_record_idempotent
    (data : value) (qry : string) (book_details book_details' : value) :
  add_additional_data_to_record data qry book_details = inr book_details' →
  add_additional_data_to_record data qry book_details' = inr book_details'.
Proof.
  intros H.
  pose proof (add_additional_data_to_record_cases data qry book_details) as Hc.
  rewrite H in Hc. destruct Hc as (author & d & source & Ha & -> & Hs & ->).
  erewrite add_additional_data_to_record_inr;
    [|done|by rewrite lookup_insert_eq].
  do 2 f_equal. rewrite insert_insert_eq. do 2 f_equal.
  apply map_eq. intros k.
  destruct (decide (k = "query")) as [->|?];
    [by rewrite !lookup_insert_eq|rewrite !(lookup_insert_ne _ "query") by done].
  destruct (decide (k = "author")) as [->|?];
    [by rewrite !lookup_insert_eq|rewrite !(lookup_insert_ne _ "author") by done].
  by rewrite ?lookup_insert_ne by done.
Qed.

Lemma add_additional_data_to_record_idempotent_witness :
  add_additional_data_to_record (VDict {[ "author" := VStr "Agatha Christie" ]})
    "mystery" (Examples.enriched_hit 1 "a mystery" "mystery" "Agatha Christie")
  = inr (Examples.enriched_hit 1 "a mystery" "mystery" "Agatha Christie").
Proof.
  apply (add_additional_data_to_record_idempotent
           (VDict {[ "author" := VStr "Agatha Christie" ]}) "mystery"
           (Examples.hit 1 "a mystery")).
  by vm_compute.
Defined.

(** ** The per-record task *)

(** X8: a record without [_source], or whose [_source] has no [id], makes
    the task raise the [KeyError] of the missing key as it is, before the
    semaphore is touched and before any request is sent. *)
Theorem retrieve_author_details_missing_key
    (post : transport) (h : heap) (l : oid) (qry : string)
    (semaphore : Z) (verbose : value) (d : gmap string value) :
  h l = VDict d →
  (d !! "_source" = None →
   retrieve_author_details post h l qry semaphore verbose
   = ([], Raised (key_error "_source"))) ∧
  (∀ source, d !! "_source" = Some (VDict source) → source !! "id" = None →
   retrieve_author_details post h l qry semaphore verbose
   = ([], Raised (key_error "id"))).
Proof.
  intros Hl. unfold retrieve_author_details, request_payload. rewrite Hl. simpl.
  split.
  - by intros ->.
  - intros source -> Hid. simpl. by rewrite Hid.
Qed.

Lemma retrieve_author_details_missing_key_witness :
  retrieve_author_details (λ _ _, Examples.answer_author "A")
    (λ _, VDict {[ "_index" := VStr "books" ]}) 0%nat "mystery" 1000 (VInt 5)
  = ([], Raised (key_error "_source")) ∧
  retrieve_author_details (λ _ _, Examples.answer_author "A")
    (λ _, VDict {[ "_source" := VDict {[ "summary" := VStr "s" ]} ]})
    0%nat "mystery" 1000 (VInt 5)
  = ([], Raised (key_error "id")).
Proof.
  split.
  - destruct (retrieve_author_details_missing_key
                (λ _ _, Examples.answer_author "A")
                (λ _, VDict {[ "_index" := VStr "books" ]}) 0%nat "mystery" 1000
                (VInt 5) {[ "_index" := VStr "books" ]} eq_refl) as [H _].
    apply H. reflexivity.
  - destruct (retrieve_author_details_missing_key
                (λ _ _, Examples.answer_author "A")
                (λ _, VDict {[ "_source" := VDict {[ "summary" := VStr "s" ]} ]})
                0%nat "mystery" 1000 (VInt 5)
                {[ "_source" := VDict {[ "summary" := VStr "s" ]} ]} eq_refl)
      as [_ H].
    apply (H {[ "summary" := VStr "s" ]}); reflexivity.
Defined.

(** X9: a response whose status is not 200, a 404 included, never gives
    the not_found status: the task raises a plain [Exception] whose only
    argument is the [TypeError] that the constructor call of
    [call_service] has raised, after that one request and without
    submitting a merge. *)
Theorem retrieve_author_details_non_200_raises
    (post : transport) (h : heap) (l : oid) (qry : string)
    (semaphore : Z) (verbose payload : value) (r : response) :
  request_payload (h l) = inr payload →
  semaphore ≠ 0 →
  post AWS_AUTHOR_API payload = PostReturns r →
  resp_status r ≠ 200 →
  ∃ exc,
    call_service post AWS_AUTHOR_API payload "POST"
    = ([EvPost AWS_AUTHOR_API payload], Raised exc) ∧
    exn_cls exc = ClsTypeError ∧
    retrieve_author_details post h l qry semaphore verbose =
    ([EvPost AWS_AUTHOR_API payload], Raised (Exception (OExn exc) exc)).
Proof.
  intros Hpay Hsem Hpost Hst.
  apply Z.eqb_neq in Hsem. apply Z.eqb_neq in Hst.
  unfold retrieve_author_details, classify_call, acquire.
  rewrite Hpay, bind_lift_inr, Hsem, bind_ret.
  rewrite (call_service_response _ _ _ _ Hpost), Hst.
  eexists. split; [reflexivity|]. done.
Qed.

Lemma retrieve_author_details_non_200_raises_witness :
  ∃ exc,
    call_service (λ _ _, Examples.answer_404) AWS_AUTHOR_API
      (Examples.payload_of 0) "POST"
    = ([EvPost AWS_AUTHOR_API (Examples.payload_of 0)], Raised exc) ∧
    exn_cls exc = ClsTypeError ∧
    retrieve_author_details (λ _ _, Examples.answer_404) Examples.store 0%nat
      "mystery" MAX_CONCUR_REQ (VInt DEFAULT_CONCUR_REQ) =
    ([EvPost AWS_AUTHOR_API (Examples.payload_of 0)],
     Raised (Exception (OExn exc) exc)).
Proof.
  apply (retrieve_author_details_non_200_raises (λ _ _, Examples.answer_404)
           Examples.store 0%nat "mystery" MAX_CONCUR_REQ (VInt DEFAULT_CONCUR_REQ)
           (Examples.payload_of 0)
           (MkResponse 404 (VStr "Not Found")
              (VDict {[ "Content-Type" := VStr "text/html" ]})
              (inl Examples.ContentTypeError))).
  - reflexivity.
  - discriminate.
  - reflexivity.
  - simpl. lia.
Defined.

(** ** Scheduler: what the tally counts *)

Lemma on_FetchError_status verbose exc st :
  outcome (on_FetchError verbose exc) = Returned st → st = HTTPStatus.error.
Proof.
  unfold on_FetchError.
  destruct (getattr exc "id" (Some exc)) as [e|id];
    [by rewrite bind_lift_inl|rewrite bind_lift_inr].
  destruct (error_msg_of exc) as [e|error_msg];
    [by rewrite bind_lift_inl|rewrite bind_lift_inr].
  rewrite outcome_bind.
  destruct (truthy verbose && truthy_obj error_msg); simpl; congruence.
Qed.

Lemma count_status_cons k m l :
  count_status k (m :: l) =
  ((if bool_decide (classify_future m = Some k) then 1 else 0)
   + count_status k l)%nat.
Proof. unfold count_status. simpl. by destruct (bool_decide _). Qed.

Lemma count_status_Permutation k l1 l2 :
  l1 ≡ₚ l2 → count_status k l1 = count_status k l2.
Proof.
  induction 1 as [|m l1 l2 _ IH|m1 m2 l|l1 l2 l3 _ IH1 _ IH2].
  - done.
  - by rewrite !count_status_cons, IH.
  - rewrite !count_status_cons. lia.
  - congruence.
Qed.

Lemma tally_loop_counts verbose arrived : ∀ counter tally,
  outcome (tally_loop verbose arrived counter) = Returned tally →
  ∀ k, counter_get tally k = (counter_get counter k + count_status k arrived)%nat.
Proof.
  induction arrived as [|future rest IH]; intros counter tally.
  - simpl. intros [= <-] k. unfold count_status. simpl. lia.
  - rewrite tally_loop_outcome_cons. intros H k.
    rewrite count_status_cons.
    destruct (outcome future) as [exc|res|] eqn:Hout; [| |done].
    + destruct (isinstance exc ClsFetchError) eqn:Hfe; [|done].
      destruct (outcome (on_FetchError verbose exc)) as [|st|] eqn:Hst;
        [done| |done].
      apply on_FetchError_status in Hst as ->.
      assert (classify_future future = Some HTTPStatus.error) as ->.
      { unfold classify_future. by rewrite Hout, Hfe. }
      rewrite (IH _ _ H k), counter_get_incr.
      destruct (decide (HTTPStatus.error = k)) as [<-|Hne].
      * rewrite bool_decide_eq_true_2 by done. lia.
      * rewrite bool_decide_eq_false_2 by congruence. lia.
    + assert (classify_future future = Some (status res)) as ->.
      { unfold classify_future. by rewrite Hout. }
      rewrite (IH _ _ H k), counter_get_incr.
      destruct (decide (status res = k)) as [<-|Hne].
      * rewrite bool_decide_eq_true_2 by done. lia.
      * rewrite bool_decide_eq_false_2 by congruence. lia.
Qed.

Lemma schedule_services_counts
    order records_list qry ncs verbose concur_req tally :
  (∀ l, order l ≡ₚ l) →
  outcome (schedule_services order records_list qry ncs verbose concur_req)
  = Returned tally →
  ∀ k, counter_get tally k
       = count_status k (to_do_of records_list qry ncs verbose concur_req).
Proof.
  intros Hperm. rewrite schedule_services_outcome.
  destruct (Z.ltb concur_req 0); [done|]. simpl.
  destruct (outcome (tally_loop _ _ _)) as [|counter|] eqn:Hloop; try done.
  destruct (forallb _ _) eqn:Hall; [|done].
  intros [= <-] k. rewrite (filter_completes_all _ Hall) in Hloop.
  rewrite (tally_loop_counts _ _ _ _ Hloop k).
  rewrite (count_status_Permutation _ _ _ (Hperm _)). done.
Qed.

(** X10: the tally is the census of the tasks: in a tally that the
    scheduler returns, the count under each status is the number of tasks
    that ended under it, a returned result counting under its status and a
    [FetchError] under error, whatever the completion order. *)
Theorem schedule_services_tally_is_census
    (order : list (M Result) → list (M Result))
    (records_list : list oid) (qry : string)
    (next_calling_service : nat → oid → string → Z → value → M Result)
    (verbose : value) (concur_req : Z) (tally : Counter) :
  (∀ l, order l ≡ₚ l) →
  outcome (schedule_services order records_list qry next_calling_service
             verbose concur_req) = Returned tally →
  ∀ k, counter_get tally k =
       count_status k
         (imap (λ i item_details,
                  next_calling_service i item_details qry concur_req verbose)
               records_list).
Proof.
  intros Hperm Hout k.
  by rewrite (schedule_services_counts _ _ _ _ _ _ _ Hperm Hout k).
Qed.

Lemma schedule_services_tally_is_census_witness :
  counter_get (<[HTTPStatus.ok := 2%nat]> (<[HTTPStatus.not_found := 1%nat]>
                 (<[HTTPStatus.ok := 1%nat]> ∅))) HTTPStatus.not_found =
  count_status HTTPStatus.not_found
    (imap (λ i item_details,
             retrieve_author_details (Examples.answers_A_B_C i) Examples.store
               item_details "mystery" 2 (VInt DEFAULT_CONCUR_REQ))
          [0; 1; 2]%nat).
Proof.
  apply (schedule_services_tally_is_census id [0; 1; 2]%nat "mystery"
           (λ i, retrieve_author_details (Examples.answers_A_B_C i) Examples.store)
           (VInt DEFAULT_CONCUR_REQ) 2).
  - intros l. reflexivity.
  - reflexivity.
Defined.

(** ** Scheduler: when a tally is returned *)

Lemma tally_loop_returns_iff verbose arrived : ∀ counter,
  (∃ tally, outcome (tally_loop verbose arrived counter) = Returned tally) ↔
  Forall (tallyable verbose) arrived.
Proof.
  induction arrived as [|future rest IH]; intros counter.
  - split; [constructor|]. by exists counter.
  - rewrite tally_loop_outcome_cons, Forall_cons. unfold tallyable at 1.
    destruct (outcome future) as [exc|res|].
    + destruct (isinstance exc ClsFetchError).
      * destruct (outcome (on_FetchError verbose exc)) as [e|st|] eqn:Hst.
        -- split; [by intros [? ?]|]. by intros [[_ [? ?]] _].
        -- rewrite IH. split; [eauto|]. by intros [_ ?].
        -- split; [by intros [? ?]|]. by intros [[_ [? ?]] _].
      * split; [by intros [? ?]|]. by intros [[? _] _].
    + rewrite IH. split; [done|]. by intros [_ ?].
    + split; [by intros [? ?]|]. by intros [[] _].
Qed.

Lemma tallyable_completes verbose (l : list (M Result)) :
  Forall (tallyable verbose) l → forallb completes l = true.
Proof.
  induction 1 as [|m l Hm _ IH]; simpl; [done|].
  rewrite IH, andb_true_r. unfold tallyable in Hm. unfold completes.
  by destruct (outcome m).
Qed.

(** The scheduler returns a tally exactly when the limit is not negative
    and the loop gets past every task. *)
Lemma schedule_services_returns_iff
    order records_list qry ncs verbose concur_req :
  (∀ l, order l ≡ₚ l) →
  (∃ tally, outcome (schedule_services order records_list qry ncs verbose
                       concur_req) = Returned tally) ↔
  (0 ≤ concur_req)%Z ∧
  Forall (tallyable verbose) (to_do_of records_list qry ncs verbose concur_req).
Proof.
  intros Hperm. rewrite schedule_services_outcome. simpl.
  destruct (Z.ltb_spec concur_req 0) as [Hneg|Hpos].
  { split; [by intros [? ?]|]. intros [? _]. lia. }
  split.
  - intros [tally H]. split; [done|].
    destruct (outcome (tally_loop _ _ _)) as [|counter|] eqn:Hloop; try done.
    destruct (forallb _ _) eqn:Hall; [|done].
    rewrite (filter_completes_all _ Hall) in Hloop.
    rewrite <- (Hperm _).
    apply (tally_loop_returns_iff verbose _ ∅). eauto.
  - intros [_ Hall]. rewrite <- (Hperm _) in Hall.
    pose proof (tallyable_completes _ _ Hall) as Hc.
    rewrite (filter_completes_all _ Hc), Hc.
    apply (tally_loop_returns_iff verbose _ ∅) in Hall as [tally ->]. eauto.
Qed.

Lemma tally_loop_no_zero verbose arrived : ∀ counter tally,
  (∀ k, counter !! k ≠ Some 0%nat) →
  outcome (tally_loop verbose arrived counter) = Returned tally →
  ∀ k, tally !! k ≠ Some 0%nat.
Proof.
  induction arrived as [|future rest IH]; intros counter tally Hc.
  - simpl. by intros [= <-].
  - assert (∀ st k, counter_incr counter st !! k ≠ Some 0%nat) as Hincr.
    { intros st k. unfold counter_incr, Counter in *. rewrite lookup_insert.
      case_decide; [done|apply Hc]. }
    rewrite tally_loop_outcome_cons.
    destruct (outcome future) as [exc|res|]; [|by apply IH|done].
    destruct (isinstance exc ClsFetchError); [|done].
    destruct (outcome (on_FetchError verbose exc)); [done|by apply IH|done].
Qed.

Lemma counter_ext (c1 c2 : Counter) :
  (∀ k, c1 !! k ≠ Some 0%nat) →
  (∀ k, c2 !! k ≠ Some 0%nat) →
  (∀ k, counter_get c1 k = counter_get c2 k) →
  c1 = c2.
Proof.
  intros H1 H2 Hget. apply map_eq. intros k.
  specialize (H1 k). specialize (H2 k). specialize (Hget k).
  unfold counter_get, Counter in *.
  destruct (c1 !! k) as [[|n]|], (c2 !! k) as [[|m]|]; simpl in *; congruence.
Qed.

Lemma schedule_services_no_zero
    order records_list qry ncs verbose concur_req tally :
  outcome (schedule_services order records_list qry ncs verbose concur_req)
  = Returned tally →
  ∀ k, tally !! k ≠ Some 0%nat.
Proof.
  rewrite schedule_services_outcome.
  destruct (Z.ltb concur_req 0); [done|]. simpl.
  destruct (outcome (tally_loop _ _ _)) as [|counter|] eqn:Hloop; try done.
  destruct (forallb _ _); [|done]. intros [= <-].
  eapply tally_loop_no_zero; [|done].
  intros k. unfold Counter. by rewrite lookup_empty.
Qed.

(** X11: the tally does not depend on the order in which the tasks
    complete: if the scheduler returns a tally under one completion order,
    it returns the same tally under every other. *)
Theorem schedule_services_order_independent
    (order1 order2 : list (M Result) → list (M Result))
    (records_list : list oid) (qry : string)
    (next_calling_service : nat → oid → string → Z → value → M Result)
    (verbose : value) (concur_req : Z) (tally : Counter) :
  (∀ l, order1 l ≡ₚ l) →
  (∀ l, order2 l ≡ₚ l) →
  outcome (schedule_services order1 records_list qry next_calling_service
             verbose concur_req) = Returned tally →
  outcome (schedule_services order2 records_list qry next_calling_service
             verbose concur_req) = Returned tally.
Proof.
  intros Hperm1 Hperm2 Hout1.
  assert (∃ tally2, outcome (schedule_services order2 records_list qry
                               next_calling_service verbose concur_req)
                    = Returned tally2) as [tally2 Hout2].
  { apply (schedule_services_returns_iff order2); [done|].
    apply (schedule_services_returns_iff order1); eauto. }
  rewrite Hout2. f_equal.
  apply counter_ext.
  - by eapply schedule_services_no_zero.
  - by eapply schedule_services_no_zero.
  - intros k.
    rewrite (schedule_services_counts _ _ _ _ _ _ _ Hperm1 Hout1 k).
    by rewrite (schedule_services_counts _ _ _ _ _ _ _ Hperm2 Hout2 k).
Qed.

Lemma schedule_services_order_independent_witness :
  outcome (schedule_services reverse [0; 1; 2]%nat "mystery"
             (λ i, retrieve_author_details (Examples.answers_A_B_C i) Examples.store)
             (VInt DEFAULT_CONCUR_REQ) 2)
  = Returned (<[HTTPStatus.ok := 2%nat]> (<[HTTPStatus.not_found := 1%nat]>
                (<[HTTPStatus.ok := 1%nat]> ∅))).
Proof.
  apply (schedule_services_order_independent id reverse [0; 1; 2]%nat "mystery"
           (λ i, retrieve_author_details (Examples.answers_A_B_C i) Examples.store)
           (VInt DEFAULT_CONCUR_REQ) 2).
  - intros l. reflexivity.
  - intros l. apply reverse_Permutation.
  - reflexivity.
Defined.

Lemma on_FetchError_not_Blocked verbose exc :
  outcome (on_FetchError verbose exc) ≠ Blocked.
Proof.
  unfold on_FetchError.
  destruct (getattr exc "id" (Some exc)) as [e|id];
    [by rewrite bind_lift_inl|rewrite bind_lift_inr].
  destruct (error_msg_of exc) as [e|error_msg];
    [by rewrite bind_lift_inl|rewrite bind_lift_inr].
  rewrite outcome_bind.
  by destruct (truthy verbose && truthy_obj error_msg).
Qed.

Lemma tally_loop_not_Blocked verbose arrived : ∀ counter,
  Forall (λ m, completes m = true) arrived →
  outcome (tally_loop verbose arrived counter) ≠ Blocked.
Proof.
  induction arrived as [|future rest IH]; intros counter Hall; [done|].
  apply Forall_cons in Hall as [Hc Hall].
  rewrite tally_loop_outcome_cons. unfold completes in Hc.
  destruct (outcome future) as [exc|res|]; [|by apply IH|done].
  destruct (isinstance exc ClsFetchError); [|done].
  pose proof (on_FetchError_not_Blocked verbose exc) as Hnb.
  destruct (outcome (on_FetchError verbose exc)); [done|by apply IH|done].
Qed.

(** X12: one task that raises anything but a [FetchError] makes the whole
    batch raise: whatever the completion order, and however the other
    tasks end, the scheduler ends with an exception and returns no
    tally. *)
Theorem schedule_services_raises_when_a_task_raises
    (order : list (M Result) → list (M Result))
    (records_list : list oid) (qry : string)
    (next_calling_service : nat → oid → string → Z → value → M Result)
    (verbose : value) (concur_req : Z) (i : nat) (l : oid) (e : exn) :
  (∀ l, order l ≡ₚ l) →
  records_list !! i = Some l →
  outcome (next_calling_service i l qry concur_req verbose) = Raised e →
  isinstance e ClsFetchError = false →
  ∃ e',
    outcome (schedule_services order records_list qry next_calling_service
               verbose concur_req) = Raised e'.
Proof.
  intros Hperm Hl Hraise Hcls.
  rewrite schedule_services_outcome.
  destruct (Z.ltb concur_req 0); [eauto|]. simpl.
  set (to_do := to_do_of _ _ _ _ _).
  set (arrived := List.filter completes (order to_do)).
  assert (Forall (λ m : M Result, completes m = true) arrived) as Hcomp.
  { apply Forall_forall. intros m Hm.
    apply list_elem_of_In, List.filter_In in Hm. tauto. }
  assert (next_calling_service i l qry concur_req verbose ∈ arrived) as Hin.
  { apply list_elem_of_In, List.filter_In. split.
    - apply list_elem_of_In. rewrite (Hperm _).
      apply (list_elem_of_lookup_2 _ i). unfold to_do, to_do_of.
      by rewrite list_lookup_imap, Hl.
    - unfold completes. by rewrite Hraise. }
  pose proof (tally_loop_not_Blocked verbose arrived ∅ Hcomp) as Hnb.
  destruct (outcome (tally_loop verbose arrived ∅)) as [e'|counter|] eqn:Hloop;
    [eauto| |done].
  assert (Forall (tallyable verbose) arrived) as Hall.
  { apply (tally_loop_returns_iff verbose arrived ∅). eauto. }
  rewrite Forall_forall in Hall. specialize (Hall _ Hin).
  unfold tallyable in Hall. rewrite Hraise, Hcls in Hall. by destruct Hall.
Qed.

Lemma schedule_services_raises_when_a_task_raises_witness :
  ∃ e',
    outcome (schedule_services id [0; 1]%nat "mystery"
               (λ i, retrieve_author_details
                       (match i with
                        | 0%nat => λ _ _, Examples.answer_author "Agatha Christie"
                        | _ => λ _ _, Examples.refuse
                        end) Examples.store)
               (VInt DEFAULT_CONCUR_REQ) MAX_CONCUR_REQ) = Raised e'.
Proof.
  apply (schedule_services_raises_when_a_task_raises id [0; 1]%nat "mystery"
           (λ i, retrieve_author_details
                   (match i with
                    | 0%nat => λ _ _, Examples.answer_author "Agatha Christie"
                    | _ => λ _ _, Examples.refuse
                    end) Examples.store)
           (VInt DEFAULT_CONCUR_REQ) MAX_CONCUR_REQ 1%nat 1%nat
           (Exception
              (OExn (Exception (OVal (VStr "call author aws service: Connection refused"))
                       (ClientConnectorError (Some "Connection refused"))))
              (Exception (OVal (VStr "call author aws service: Connection refused"))
                 (ClientConnectorError (Some "Connection refused"))))).
  - intros l. reflexivity.
  - reflexivity.
  - reflexivity.
  - reflexivity.
Defined.

Lemma getattr_FetchError_id id error cause context ctx :
  getattr (FetchError id error cause context) "id" ctx = inr id.
Proof. reflexivity. Qed.

(** X13: the error outcome works for a [FetchError] raised from a cause:
    when every task returns a result or raises a [FetchError(id, error)]
    that has a cause, the scheduler returns a tally. *)
Theorem schedule_services_tallies_FetchError_with_cause
    (order : list (M Result) → list (M Result))
    (records_list : list oid) (qry : string)
    (next_calling_service : nat → oid → string → Z → value → M Result)
    (verbose : value) (concur_req : Z) :
  (∀ l, order l ≡ₚ l) →
  (0 ≤ concur_req)%Z →
  (∀ i l, records_list !! i = Some l →
     (∃ res, outcome (next_calling_service i l qry concur_req verbose)
             = Returned res) ∨
     (∃ id error cause context,
        outcome (next_calling_service i l qry concur_req verbose)
        = Raised (FetchError id error (Some cause) context))) →
  ∃ tally,
    outcome (schedule_services order records_list qry next_calling_service
               verbose concur_req) = Returned tally.
Proof.
  intros Hperm Hpos Htasks.
  apply (schedule_services_returns_iff order); [done|]. split; [done|].
  apply to_do_of_Forall. intros i l Hl. unfold tallyable.
  destruct (Htasks i l Hl) as [[res ->]|(id & error & cause & context & ->)];
    [done|].
  split; [done|]. exists HTTPStatus.error.
  unfold on_FetchError. rewrite getattr_FetchError_id, bind_lift_inr.
  rewrite (error_msg_of_with_cause _ cause) by done.
  rewrite bind_lift_inr, outcome_bind.
  by destruct (truthy verbose && _).
Qed.

Lemma schedule_services_tallies_FetchError_with_cause_witness :
  ∃ tally,
    outcome (schedule_services id [0; 1]%nat "mystery"
               Examples.raise_FetchError_from_KeyError
               (VInt DEFAULT_CONCUR_REQ) MAX_CONCUR_REQ) = Returned tally.
Proof.
  apply (schedule_services_tallies_FetchError_with_cause id [0; 1]%nat "mystery"
           Examples.raise_FetchError_from_KeyError
           (VInt DEFAULT_CONCUR_REQ) MAX_CONCUR_REQ).
  - intros l. reflexivity.
  - discriminate.
  - intros i l _. right. eexists _, _, _, _. reflexivity.
Defined.

(** ** Scheduler with [retrieve_author_details] *)

(** The status under which a task of [retrieve_author_details] is
    tallied, from what its call does. *)
Lemma retrieve_author_details_classify post h l qry semaphore verbose :
  classify_future (retrieve_author_details post h l qry semaphore verbose) ≠
  Some HTTPStatus.error ∧
  length (future_jobs (retrieve_author_details post h l qry semaphore verbose)) =
  if bool_decide (classify_future
                    (retrieve_author_details post h l qry semaphore verbose)
                  = Some HTTPStatus.ok)
  then 1%nat else 0%nat.
Proof.
  rewrite retrieve_author_details_jobs. unfold classify_future.
  rewrite retrieve_author_details_outcome.
  destruct (request_payload (h l)) as [e|payload] eqn:Hpay.
  { assert (isinstance e ClsFetchError = false) as ->; [|done].
    unfold request_payload, getitem in Hpay.
    repeat (case_match; simplify_eq/=); done. }
  destruct (Z.eqb semaphore 0); [done|].
  destruct (outcome (call_service _ _ _ _)) as [exc|d|]; [|done|done].
  destruct (isinstance exc ClsHTTPNotFound); [done|].
  destruct (is_Exception (exn_cls exc)) eqn:Hex; [done|].
  by rewrite (isinstance_not_Exception _ _ Hex).
Qed.

Lemma count_status_none k (l : list (M Result)) :
  Forall (λ m, classify_future m ≠ Some k) l → count_status k l = 0%nat.
Proof.
  induction 1 as [|m l Hm _ IH]; [done|].
  rewrite count_status_cons, IH. by rewrite bool_decide_eq_false_2.
Qed.

(** X14: with [retrieve_author_details] the error count stays zero: in
    every tally that the scheduler returns for it, nothing is counted
    under error and the ok and not_found counts add up to the number of
    records. *)
Theorem schedule_services_retrieve_never_counts_error
    (order : list (M Result) → list (M Result)) (post : nat → transport)
    (h : heap) (records_list : list oid) (qry : string)
    (verbose : value) (concur_req : Z) (tally : Counter) :
  (∀ l, order l ≡ₚ l) →
  outcome (schedule_services order records_list qry
             (λ i, retrieve_author_details (post i) h) verbose concur_req)
  = Returned tally →
  counter_get tally HTTPStatus.error = 0%nat ∧
  (counter_get tally HTTPStatus.ok + counter_get tally HTTPStatus.not_found)%nat
  = length records_list.
Proof.
  intros Hperm Hout.
  assert (counter_get tally HTTPStatus.error = 0%nat) as Herr.
  { rewrite (schedule_services_counts _ _ _ _ _ _ _ Hperm Hout).
    apply count_status_none, to_do_of_Forall. intros i l _.
    apply retrieve_author_details_classify. }
  split; [done|].
  pose proof (schedule_services_tally_total _ _ _ _ _ _ _ Hperm Hout) as Htot.
  unfold counter_total in Htot. lia.
Qed.

Lemma schedule_services_retrieve_never_counts_error_witness :
  counter_get (<[HTTPStatus.ok := 2%nat]> (<[HTTPStatus.not_found := 1%nat]>
                 (<[HTTPStatus.ok := 1%nat]> ∅))) HTTPStatus.error = 0%nat ∧
  (counter_get (<[HTTPStatus.ok := 2%nat]> (<[HTTPStatus.not_found := 1%nat]>
                  (<[HTTPStatus.ok := 1%nat]> ∅))) HTTPStatus.ok
   + counter_get (<[HTTPStatus.ok := 2%nat]> (<[HTTPStatus.not_found := 1%nat]>
                    (<[HTTPStatus.ok := 1%nat]> ∅))) HTTPStatus.not_found)%nat
  = length [0; 1; 2]%nat.
Proof.
  apply (schedule_services_retrieve_never_counts_error id Examples.answers_A_B_C
           Examples.store [0; 1; 2]%nat "mystery" (VInt DEFAULT_CONCUR_REQ) 2).
  - intros l. reflexivity.
  - reflexivity.
Defined.

Lemma length_bind_count {A B} (f : A → list B) (b : A → bool) (l : list A) :
  Forall (λ x, length (f x) = if b x then 1%nat else 0%nat) l →
  length (l ≫= f) = length (List.filter b l).
Proof.
  induction 1 as [|x l Hx _ IH]; [done|].
  rewrite bind_cons, length_app, Hx, IH. simpl. by destruct (b x).
Qed.

(** X15: the merges follow the tally: in a batch that returns a tally the
    number of merges handed to the executor is the ok count. *)
Theorem schedule_services_merges_match_ok_count
    (order : list (M Result) → list (M Result)) (post : nat → transport)
    (h : heap) (records_list : list oid) (qry : string)
    (verbose : value) (concur_req : Z) (tally : Counter) :
  (∀ l, order l ≡ₚ l) →
  outcome (schedule_services order records_list qry
             (λ i, retrieve_author_details (post i) h) verbose concur_req)
  = Returned tally →
  length (jobs_of (trace (schedule_services order records_list qry
                            (λ i, retrieve_author_details (post i) h)
                            verbose concur_req)))
  = counter_get tally HTTPStatus.ok.
Proof.
  intros Hperm Hout.
  rewrite (schedule_services_jobs _ _ _ _ _ _ _ Hperm Hout).
  rewrite (schedule_services_counts _ _ _ _ _ _ _ Hperm Hout).
  unfold count_status. apply length_bind_count.
  apply to_do_of_Forall. intros i l _.
  apply retrieve_author_details_classify.
Qed.

Lemma schedule_services_merges_match_ok_count_witness :
  length (jobs_of (trace (schedule_services id [0; 1; 2]%nat "mystery"
                            (λ i, retrieve_author_details
                                    (Examples.answers_A_B_C i) Examples.store)
                            (VInt DEFAULT_CONCUR_REQ) 2)))
  = counter_get (<[HTTPStatus.ok := 2%nat]> (<[HTTPStatus.not_found := 1%nat]>
                   (<[HTTPStatus.ok := 1%nat]> ∅))) HTTPStatus.ok.
Proof.
  apply (schedule_services_merges_match_ok_count id Examples.answers_A_B_C
           Examples.store [0; 1; 2]%nat "mystery" (VInt DEFAULT_CONCUR_REQ) 2).
  - intros l. reflexivity.
  - reflexivity.
Defined.

(** ** The requests of a batch *)

Lemma posts_of_app t1 t2 : posts_of (t1 ++ t2) = posts_of t1 ++ posts_of t2.
Proof. apply omap_app. Qed.

Lemma on_FetchError_posts verbose exc :
  posts_of (trace (on_FetchError verbose exc)) = [].
Proof.
  pose proof (on_FetchError_trace verbose exc) as H.
  induction H as [|ev t (id & msg & ->) _ IH]; [done|]. simpl. exact IH.
Qed.

Lemma tally_loop_posts verbose arrived : ∀ counter tally,
  outcome (tally_loop verbose arrived counter) = Returned tally →
  posts_of (trace (tally_loop verbose arrived counter))
  = arrived ≫= (λ m, posts_of (trace m)).
Proof.
  induction arrived as [|future rest IH]; intros counter tally; [done|].
  rewrite tally_loop_outcome_cons, tally_loop_trace_cons, bind_cons, posts_of_app.
  intros H. f_equal.
  destruct (outcome future) as [exc|res|]; [|by eapply IH|done].
  destruct (isinstance exc ClsFetchError); [|done].
  rewrite posts_of_app, on_FetchError_posts. simpl.
  destruct (outcome (on_FetchError verbose exc)); [done|by eapply IH|done].
Qed.

Lemma schedule_services_posts order records_list qry ncs verbose concur_req tally :
  (∀ l, order l ≡ₚ l) →
  outcome (schedule_services order records_list qry ncs verbose concur_req)
  = Returned tally →
  posts_of (trace (schedule_services order records_list qry ncs verbose concur_req))
  ≡ₚ to_do_of records_list qry ncs verbose concur_req ≫= (λ m, posts_of (trace m)).
Proof.
  intros Hperm. rewrite schedule_services_outcome, schedule_services_trace.
  destruct (Z.ltb concur_req 0); [done|]. simpl.
  destruct (outcome (tally_loop _ _ _)) as [|counter|] eqn:Hloop; try done.
  destruct (forallb _ _) eqn:Hall; [|done]. intros _.
  rewrite posts_of_app.
  replace (posts_of (if truthy verbose then [] else [EvProgress (length records_list)]))
    with (@nil (string * value)) by (by destruct (truthy verbose)).
  simpl. rewrite (tally_loop_posts _ _ _ _ Hloop).
  by rewrite (filter_completes_all _ Hall), (Hperm _).
Qed.

(** The request of a task: one POST of [{'book_id': id}] to
    [AWS_AUTHOR_API], once the task has its request body and a slot. *)
Lemma retrieve_author_details_posts post h l qry semaphore verbose :
  posts_of (trace (retrieve_author_details post h l qry semaphore verbose)) =
  match request_payload (h l) with
  | inl _ => []
  | inr payload => if Z.eqb semaphore 0 then [] else [(AWS_AUTHOR_API, payload)]
  end.
Proof.
  rewrite retrieve_author_details_trace.
  destruct (request_payload (h l)) as [e|payload]; [done|].
  destruct (Z.eqb semaphore 0); [done|].
  rewrite posts_of_app, call_service_single_attempt_trace.
  by destruct (outcome (call_service _ _ _ _)).
Qed.

(** X16: one request per record, and no other: in a batch that returns a
    tally, the requests sent are as many as the records, each goes to
    [AWS_AUTHOR_API], and each carries the body [{'book_id': id}] of a
    record of the batch. *)
Theorem schedule_services_one_request_per_record
    (order : list (M Result) → list (M Result)) (post : nat → transport)
    (h : heap) (records_list : list oid) (qry : string)
    (verbose : value) (concur_req : Z) (tally : Counter) :
  (∀ l, order l ≡ₚ l) →
  outcome (schedule_services order records_list qry
             (λ i, retrieve_author_details (post i) h) verbose concur_req)
  = Returned tally →
  length (posts_of (trace (schedule_services order records_list qry
                             (λ i, retrieve_author_details (post i) h)
                             verbose concur_req)))
  = length records_list ∧
  ∀ url payload,
    (url, payload) ∈ posts_of (trace (schedule_services order records_list qry
                                        (λ i, retrieve_author_details (post i) h)
                                        verbose concur_req)) →
    url = AWS_AUTHOR_API ∧
    ∃ l source book_id,
      l ∈ records_list ∧
      getitem (h l) "_source" = inr source ∧
      getitem source "id" = inr book_id ∧
      payload = VDict {[ "book_id" := book_id ]}.
Proof.
  intros Hperm Hout.
  pose proof (schedule_services_posts _ _ _ _ _ _ _ Hperm Hout) as Hposts.
  split.
  - rewrite Hposts.
    rewrite (length_bind_count _ (λ _, true)).
    + rewrite List.filter_true. apply to_do_of_length.
    + apply to_do_of_Forall. intros i l Hl.
      destruct (schedule_services_tasks_returned _ _ _ _ _ _ _ _ i l Hperm Hout Hl)
        as (st & Htask & _).
      rewrite retrieve_author_details_posts.
      rewrite retrieve_author_details_outcome in Htask.
      destruct (request_payload (h l)); [done|].
      by destruct (Z.eqb concur_req 0).
  - intros url payload Hin. rewrite Hposts in Hin.
    apply list_elem_of_bind in Hin as (m & Hin & Hm).
    apply elem_of_lookup_imap_1 in Hm as (i & l & -> & Hl).
    rewrite retrieve_author_details_posts in Hin.
    destruct (request_payload (h l)) as [|p] eqn:Hpay; [by inversion Hin|].
    destruct (Z.eqb concur_req 0); [by inversion Hin|].
    apply list_elem_of_singleton in Hin as [= -> ->].
    split; [done|].
    unfold request_payload in Hpay.
    destruct (getitem (h l) "_source") as [|source] eqn:Hs; [done|].
    destruct (getitem source "id") as [|book_id] eqn:Hid; [done|].
    injection Hpay as <-.
    exists l, source, book_id. split; [by eapply list_elem_of_lookup_2|done].
Qed.

Lemma schedule_services_one_request_per_record_witness :
  length (posts_of (trace (schedule_services id [0; 1; 2]%nat "mystery"
                             (λ i, retrieve_author_details
                                     (Examples.answers_A_B_C i) Examples.store)
                             (VInt DEFAULT_CONCUR_REQ) 2)))
  = length [0; 1; 2]%nat ∧
  ∃ l source book_id,
    l ∈ [0; 1; 2]%nat ∧
    getitem (Examples.store l) "_source" = inr source ∧
    getitem source "id" = inr book_id ∧
    Examples.payload_of 1 = VDict {[ "book_id" := book_id ]}.
Proof.
  destruct (schedule_services_one_request_per_record id Examples.answers_A_B_C
              Examples.store [0; 1; 2]%nat "mystery" (VInt DEFAULT_CONCUR_REQ) 2
              (<[HTTPStatus.ok := 2%nat]> (<[HTTPStatus.not_found := 1%nat]>
                 (<[HTTPStatus.ok := 1%nat]> ∅)))) as [Hlen Hposts].
  - intros l. reflexivity.
  - reflexivity.
  - split; [exact Hlen|].
    destruct (Hposts AWS_AUTHOR_API (Examples.payload_of 1)) as [_ H];
      [|exact H].
    apply list_elem_of_further, list_elem_of_here.
Defined.

(** ** Scheduler: limits and empty batches *)

Lemma Blocked_never_arrive {A} (l : list (M A)) :
  Forall (λ m, outcome m = Blocked) l →
  List.filter completes l = [] ∧ (l ≠ [] → forallb completes l = false).
Proof.
  induction 1 as [|m l Hm _ [IH1 IH2]]; [done|].
  assert (completes m = false) as Hc by (unfold completes; by rewrite Hm).
  simpl. rewrite Hc. done.
Qed.

(** X17: a limit of zero stalls the batch: with [concur_req = 0] and at
    least one record, all records having an id, no task ever gets a slot,
    nothing is sent, and the scheduler neither returns nor raises. *)
Theorem schedule_services_zero_limit_blocks
    (order : list (M Result) → list (M Result)) (post : nat → transport)
    (h : heap) (records_list : list oid) (qry : string) (verbose : value) :
  (∀ l, order l ≡ₚ l) →
  records_list ≠ [] →
  (∀ i l, records_list !! i = Some l →
          ∃ payload, request_payload (h l) = inr payload) →
  outcome (schedule_services order records_list qry
             (λ i, retrieve_author_details (post i) h) verbose 0) = Blocked ∧
  posts_of (trace (schedule_services order records_list qry
                     (λ i, retrieve_author_details (post i) h) verbose 0)) = [].
Proof.
  intros Hperm Hne Hpay.
  rewrite schedule_services_outcome, schedule_services_trace. simpl.
  set (to_do := to_do_of _ _ _ _ _).
  assert (Forall (λ m : M Result, outcome m = Blocked) (order to_do)) as Hall.
  { rewrite (Hperm _). apply to_do_of_Forall. intros i l Hl.
    destruct (Hpay i l Hl) as [payload Hp].
    by rewrite retrieve_author_details_outcome, Hp. }
  destruct (Blocked_never_arrive _ Hall) as [-> Hnot].
  rewrite Hnot.
  - split; [done|]. rewrite posts_of_app. by destruct (truthy verbose).
  - intros Hnil. apply Hne. apply (f_equal length) in Hnil.
    rewrite (Permutation_length (Hperm _)) in Hnil. unfold to_do in Hnil.
    rewrite to_do_of_length in Hnil. by destruct records_list.
Qed.

Lemma schedule_services_zero_limit_blocks_witness :
  outcome (schedule_services id [0; 1]%nat "mystery"
             (λ i, retrieve_author_details (λ _ _, Examples.answer_author "A")
                     Examples.store)
             (VInt DEFAULT_CONCUR_REQ) 0) = Blocked ∧
  posts_of (trace (schedule_services id [0; 1]%nat "mystery"
                     (λ i, retrieve_author_details (λ _ _, Examples.answer_author "A")
                             Examples.store)
                     (VInt DEFAULT_CONCUR_REQ) 0)) = [].
Proof.
  apply (schedule_services_zero_limit_blocks id
           (λ _ _ _, Examples.answer_author "A") Examples.store [0; 1]%nat
           "mystery" (VInt DEFAULT_CONCUR_REQ)).
  - intros l. reflexivity.
  - discriminate.
  - intros i l Hl. eexists. reflexivity.
Defined.

(** X18: an empty batch is harmless: for an empty list of records and a
    limit that is not negative, the scheduler creates its semaphore, sends
    nothing and returns the empty tally, in which every count reads 0; in
    non-verbose mode the progress observer is installed with total 0. *)
Theorem schedule_services_empty_batch
    (order : list (M Result) → list (M Result)) (qry : string)
    (next_calling_service : nat → oid → string → Z → value → M Result)
    (verbose : value) (concur_req : Z) :
  (∀ l, order l ≡ₚ l) →
  (0 ≤ concur_req)%Z →
  schedule_services order [] qry next_calling_service verbose concur_req =
  (EvSemaphore concur_req :: (if truthy verbose then [] else [EvProgress 0]),
   Returned ∅) ∧
  ∀ k, counter_get ∅ k = 0%nat.
Proof.
  intros Hperm Hpos. split; [|done].
  unfold schedule_services, Semaphore.
  destruct (Z.ltb_spec concur_req 0) as [?|_]; [lia|].
  pose proof (proj1 (Permutation_nil_r _) (Hperm [])) as Hnil.
  simpl. rewrite Hnil. by destruct (truthy verbose).
Qed.

Lemma schedule_services_empty_batch_witness :
  schedule_services reverse [] "mystery"
    (λ i, retrieve_author_details (λ _ _, Examples.refuse) Examples.store)
    (VBool false) 0 =
  ([EvSemaphore 0; EvProgress 0], Returned ∅) ∧
  ∀ k, counter_get ∅ k = 0%nat.
Proof.
  apply (schedule_services_empty_batch reverse "mystery"
           (λ i, retrieve_author_details (λ _ _, Examples.refuse) Examples.store)
           (VBool false) 0).
  - intros l. apply reverse_Permutation.
  - reflexivity.
Defined.

(** ** BatchRunner: all or nothing *)

Lemma retrieve_author_details_Returned_inv post h l qry semaphore verbose res :
  outcome (retrieve_author_details post h l qry semaphore verbose) = Returned res →
  ∃ payload,
    request_payload (h l) = inr payload ∧
    match outcome (call_service post AWS_AUTHOR_API payload "POST") with
    | Returned _ => True
    | Raised e => isinstance e ClsHTTPNotFound = true
    | Blocked => False
    end.
Proof.
  rewrite retrieve_author_details_outcome.
  destruct (request_payload (h l)) as [|payload]; [done|].
  destruct (Z.eqb semaphore 0); [done|].
  intros H. exists payload. split; [done|].
  destruct (outcome (call_service _ _ _ _)) as [exc| |]; [|done|done].
  destruct (isinstance exc ClsHTTPNotFound); [done|].
  by destruct (is_Exception (exn_cls exc)).
Qed.

Lemma run_query_list_loop_calls w size :
  (∀ k l, order w k l ≡ₚ l) →
  ∀ qs k h next result t res hf,
    run_query_list_loop w size k qs h next result = (t, Returned (res, hf)) →
    ∀ i qry, qs !! i = Some qry →
      ∃ hits,
        search w (k + i)%nat qry size = inr hits ∧
        ∀ j r, hits !! j = Some r →
          ∃ payload,
            request_payload r = inr payload ∧
            match outcome (call_service (post w (k + i)%nat j) AWS_AUTHOR_API
                             payload "POST") with
            | Returned _ => True
            | Raised e => isinstance e ClsHTTPNotFound = true
            | Blocked => False
            end.
Proof.
  intros Hperm.
  induction qs as [|qry0 rest IH]; intros k h next result t res hf; simpl; [done|].
  destruct (search w k qry0 size) as [e|hits] eqn:Hsearch;
    [by rewrite bind_lift_inl|rewrite bind_lift_inr].
  intros (t1 & [] & t2 & Hbatch & Hrest & ->)%bind_Returned_inv i qry Hi.
  destruct i as [|i]; simpl in Hi.
  - injection Hi as <-. rewrite Nat.add_0_r. exists hits. split; [done|].
    intros j r Hj.
    assert (∃ tally,
              outcome (schedule_services (order w k) (seq next (length hits)) qry0
                         (λ i, retrieve_author_details (post w k i)
                                 (alloc h next hits))
                         (VInt DEFAULT_CONCUR_REQ) MAX_CONCUR_REQ)
              = Returned tally) as [tally Htally].
    { unfold call_author_many in Hbatch.
      apply (f_equal outcome) in Hbatch. rewrite outcome_bind in Hbatch.
      destruct (outcome (schedule_services _ _ _ _ _ _)); [done|eauto|done]. }
    destruct (schedule_services_tasks_returned _ _ _ _ _ _ _ _ j (next + j)%nat
                (Hperm k) Htally) as (st & Htask & _).
    { apply lookup_seq. split; [done|]. by eapply lookup_lt_Some. }
    apply retrieve_author_details_Returned_inv in Htask.
    by rewrite (alloc_lookup _ _ _ _ _ Hj) in Htask.
  - replace (k + S i)%nat with (S k + i)%nat by lia. by eapply IH.
Qed.

(** X19: the batch runner is all or nothing: when [run_query_list]
    returns a list, the search of every term had returned its hits, every
    hit had an id, and the call for every single hit had returned a parsed
    body or ended in [web.HTTPNotFound]; one call ending otherwise, for
    any hit of any term, and nothing is returned. *)
Theorem run_query_list_returns_only_if_every_call_succeeds
    (w : World) (self : ElasticSearchBookService)
    (t : list event) (result : list (list oid)) (hf : heap) :
  (∀ k l, order w k l ≡ₚ l) →
  run_query_list w self = (t, Returned (result, hf)) →
  ∀ k qry, query_list self !! k = Some qry →
    ∃ hits,
      search w k qry (size self) = inr hits ∧
      ∀ j r, hits !! j = Some r →
        ∃ payload,
          request_payload r = inr payload ∧
          match outcome (call_service (post w k j) AWS_AUTHOR_API payload "POST") with
          | Returned _ => True
          | Raised e => isinstance e ClsHTTPNotFound = true
          | Blocked => False
          end.
Proof.
  intros Hperm Hrun k qry Hk.
  by apply (run_query_list_loop_calls w (size self) Hperm _ _ _ _ _ _ _ _ Hrun k qry).
Qed.

Lemma run_query_list_returns_only_if_every_call_succeeds_witness :
  ∃ hits,
    search Examples.two_hits_world 1 "romance" (size Examples.two_terms) = inr hits ∧
    ∀ j r, hits !! j = Some r →
      ∃ payload,
        request_payload r = inr payload ∧
        match outcome (call_service (post Examples.two_hits_world 1 j)
                         AWS_AUTHOR_API payload "POST") with
        | Returned _ => True
        | Raised e => isinstance e ClsHTTPNotFound = true
        | Blocked => False
        end.
Proof.
  apply (run_query_list_returns_only_if_every_call_succeeds
           Examples.two_hits_world Examples.two_terms
           (trace Examples.two_terms_run) Examples.two_terms_result
           Examples.two_terms_heap).
  - intros k l. simpl. apply reverse_Permutation.
  - reflexivity.
  - reflexivity.
Defined.

(** ** BatchRunner: one scheduling run per term *)

Lemma sems_of_app t1 t2 : sems_of (t1 ++ t2) = sems_of t1 ++ sems_of t2.
Proof. apply omap_app. Qed.

Lemma sems_of_none t :
  Forall (λ ev, match ev with EvSemaphore _ => False | _ => True end) t →
  sems_of t = [].
Proof.
  induction 1 as [|ev t Hev _ IH]; [done|].
  destruct ev; simpl; done.
Qed.

Lemma call_author_many_sems order post h records_list qry verbose concur_req :
  (∀ l, order l ≡ₚ l) →
  outcome (call_author_many order post h records_list qry verbose concur_req)
  = Returned () →
  sems_of (trace (call_author_many order post h records_list qry verbose
                    concur_req)) = [concur_req].
Proof.
  intros Hperm. unfold call_author_many.
  rewrite outcome_bind, trace_bind, sems_of_app.
  destruct (outcome (schedule_services _ _ _ _ _ _)) as [|tally|] eqn:Hout;
    try done.
  intros _. simpl. rewrite app_nil_r.
  rewrite schedule_services_outcome in Hout.
  rewrite schedule_services_trace.
  destruct (Z.ltb concur_req 0); [done|]. simpl. f_equal.
  apply sems_of_none, Forall_app. split; [by destruct (truthy verbose); repeat constructor|].
  apply tally_loop_trace_Forall; [done|].
  apply Forall_List_filter. rewrite (Hperm _).
  apply to_do_of_Forall. intros i l _.
  eapply Forall_impl; [apply retrieve_author_details_trace_task_events|].
  by intros [].
Qed.

Lemma run_query_list_loop_sems w size :
  (∀ k l, order w k l ≡ₚ l) →
  ∀ qs k h next result t res,
    run_query_list_loop w size k qs h next result = (t, Returned res) →
    sems_of t = replicate (length qs) MAX_CONCUR_REQ.
Proof.
  intros Hperm.
  induction qs as [|qry rest IH]; intros k h next result t res; simpl.
  - by intros [= <- _].
  - destruct (search w k qry size) as [e|hits];
      [by rewrite bind_lift_inl|rewrite bind_lift_inr].
    intros (t1 & [] & t2 & Hbatch & Hrest & ->)%bind_Returned_inv.
    rewrite sems_of_app, (IH _ _ _ _ _ _ Hrest).
    pose proof (call_author_many_sems (order w k) (post w k) (alloc h next hits)
                  (seq next (length hits)) qry (VInt DEFAULT_CONCUR_REQ)
                  MAX_CONCUR_REQ (Hperm k)) as Hs.
    rewrite Hbatch in Hs. simpl in Hs. by rewrite (Hs eq_refl).
Qed.

(** X20: one scheduling run per term: a run of [run_query_list] that
    returns has created exactly one semaphore for each query term, each
    with capacity 1000. *)
Theorem run_query_list_one_semaphore_per_term
    (w : World) (self : ElasticSearchBookService)
    (t : list event) (res : list (list oid) * heap) :
  (∀ k l, order w k l ≡ₚ l) →
  run_query_list w self = (t, Returned res) →
  sems_of t = replicate (length (query_list self)) 1000.
Proof.
  intros Hperm Hrun.
  by apply (run_query_list_loop_sems w (size self) Hperm _ _ _ _ _ _ _ Hrun).
Qed.

Lemma run_query_list_one_semaphore_per_term_witness :
  sems_of (trace Examples.two_terms_run)
  = replicate (length (query_list Examples.two_terms)) 1000.
Proof.
  apply (run_query_list_one_semaphore_per_term
           Examples.two_hits_world Examples.two_terms
           (trace Examples.two_terms_run)
           (Examples.two_terms_result, Examples.two_terms_heap)).
  - intros k l. simpl. apply reverse_Permutation.
  - reflexivity.
Defined.

(** ** The tasks under the event loop: progress and termination *)

Module EventLoopProgress.
Import EventLoop.

Lemma rank_insert ps : ∀ i p p',
  ps !! i = Some p →
  (sum_list (steps_left <$> <[i := p']> ps) + steps_left p)%nat
  = (sum_list (steps_left <$> ps) + steps_left p')%nat.
Proof.
  induction ps as [|q ps IH]; intros i p p' Hi; [done|].
  destruct i as [|i]; csimpl in *.
  - injection Hi as ->. lia.
  - specialize (IH i p p' Hi). lia.
Qed.

Lemma in_flight_pos ps :
  (0 < in_flight ps)%nat → ∃ j payload, ps !! j = Some (InFlight payload).
Proof.
  induction ps as [|p ps IH]; [unfold in_flight; simpl; lia|].
  rewrite EventLoopFacts.in_flight_cons. intros Hpos.
  destruct p as [|payload|payload|r];
    try (destruct IH as (j & payload' & Hj); [simpl in Hpos; lia|];
         by exists (S j), payload').
  by exists 0%nat, payload.
Qed.

Section Batch.
Variable post : nat → transport.
Variable h : heap.
Variable records_list : list oid.
Variable qry : string.
Variable semaphore : Z.

Lemma step_rank σ σ' :
  step post h records_list qry σ σ' → (rank σ' < rank σ)%nat.
Proof.
  unfold rank.
  intros [σ0 i l e Hi _ _|σ0 i l payload Hi _ _
         |σ0 i payload Hi Hpos|σ0 i l payload Hi _]; simpl.
  - pose proof (rank_insert (tasks σ0) i _ (Finished (raise e)) Hi).
    simpl in *. lia.
  - pose proof (rank_insert (tasks σ0) i _ (Waiting payload) Hi).
    simpl in *. lia.
  - pose proof (rank_insert (tasks σ0) i _ (InFlight payload) Hi).
    simpl in *. lia.
  - pose proof (rank_insert (tasks σ0) i _
                  (Finished (classify_call l qry
                               (call_service (post i) AWS_AUTHOR_API payload "POST")))
                  Hi).
    simpl in *. lia.
Qed.

Lemma steps_reachable n σ :
  steps post h records_list qry n (init records_list semaphore) σ →
  reachable post h records_list qry semaphore σ.
Proof.
  remember (init records_list semaphore) as σ0 eqn:Hσ0.
  induction 1 as [|n σ1 σ2 σ3 _ IH Hstep]; subst.
  - constructor.
  - econstructor; [by apply IH|done].
Qed.

Lemma reachable_length σ :
  reachable post h records_list qry semaphore σ →
  length (tasks σ) = length records_list.
Proof.
  induction 1 as [|σ σ' _ IH Hstep].
  - simpl. apply length_replicate.
  - destruct Hstep; simpl; by rewrite length_insert.
Qed.

End Batch.

(** X21: every run of the tasks ends: each step takes one task further
    towards its end, so a run from the start has at most three steps per
    task, and a run of that length has finished every task. *)
Theorem steps_bounded
    (post : nat → transport) (h : heap) (records_list : list oid)
    (qry : string) (semaphore : Z) (n : nat) (σ : state) :
  steps post h records_list qry n (init records_list semaphore) σ →
  (n + rank σ ≤ 3 * length records_list)%nat ∧
  (n = 3 * length records_list →
   ∀ i p, tasks σ !! i = Some p → ∃ r, p = Finished r)%nat.
Proof.
  intros Hsteps.
  assert (n + rank σ ≤ 3 * length records_list)%nat as Hrank.
  { remember (init records_list semaphore) as σ0 eqn:Hσ0.
    induction Hsteps as [|n σ1 σ2 σ3 _ IH Hstep]; subst.
    - unfold rank. simpl.
      assert (∀ m, sum_list (steps_left <$> replicate m Created) = 3 * m)%nat
        as ->; [|lia].
      induction m as [|m IHm]; csimpl; [done|]. rewrite IHm. lia.
    - specialize (IH eq_refl). apply step_rank in Hstep. lia. }
  split; [done|].
  intros -> i p Hi.
  assert (rank σ = 0%nat) as Hz by lia.
  unfold rank in Hz. clear -Hz Hi. revert i Hi.
  induction (tasks σ) as [|q ps IH]; intros i Hi; [done|].
  csimpl in Hz. destruct i as [|i]; simpl in Hi.
  - injection Hi as ->. destruct p; simpl in Hz; try lia. eauto.
  - apply (IH ltac:(lia) i Hi).
Qed.

Lemma steps_bounded_witness :
  (3 + rank one_task_done ≤ 3 * length [0%nat])%nat ∧
  (3 = 3 * length [0%nat] →
   ∀ i p, tasks one_task_done !! i = Some p → ∃ r, p = Finished r)%nat.
Proof.
  apply (steps_bounded (λ _ _ _, Examples.refuse) Examples.store [0%nat]
           "mystery" 1 3 one_task_done).
  apply (steps_S _ _ _ _ 2
           (MkState 1 [Created] [])
           (MkState 0 [InFlight (Examples.payload_of 0)] [Acquire 0])).
  - apply (steps_S _ _ _ _ 1
             (MkState 1 [Created] [])
             (MkState 1 [Waiting (Examples.payload_of 0)] [])).
    + apply (steps_S _ _ _ _ 0
               (MkState 1 [Created] [])
               (MkState 1 [Created] [])).
      * apply steps_O.
      * apply (step_start _ _ _ _ (MkState 1 [Created] [])
                 0%nat 0%nat (Examples.payload_of 0)); reflexivity.
    + apply (step_acquire _ _ _ _
               (MkState 1 [Waiting (Examples.payload_of 0)] [])
               0%nat (Examples.payload_of 0)); [reflexivity|simpl; lia].
  - apply (step_answer (λ _ _ _, Examples.refuse) Examples.store [0%nat]
             "mystery"
             (MkState 0 [InFlight (Examples.payload_of 0)] [Acquire 0])
             0%nat 0%nat (Examples.payload_of 0)); reflexivity.
Defined.

(** X22: with at least one slot the tasks never deadlock: in every state
    they can reach, as long as one task is not finished, some task can
    take a step. *)
Theorem reachable_no_deadlock
    (post : nat → transport) (h : heap) (records_list : list oid)
    (qry : string) (semaphore : Z) (σ : state) (i : nat) (p : phase) :
  (0 < semaphore)%Z →
  reachable post h records_list qry semaphore σ →
  tasks σ !! i = Some p →
  (∀ r, p ≠ Finished r) →
  ∃ σ', step post h records_list qry σ σ'.
Proof.
  intros Hsem Hreach Hi Hp.
  pose proof (reachable_length _ _ _ _ _ _ Hreach) as Hlen.
  pose proof (EventLoopFacts.reachable_sem_value _ _ _ _ _ _ Hreach) as Hval.
  assert (∀ j q, tasks σ !! j = Some q → ∃ l, records_list !! j = Some l) as Hrec.
  { intros j q Hj. apply lookup_lt_is_Some_2. rewrite <- Hlen.
    by eapply lookup_lt_Some. }
  assert (∀ j payload, tasks σ !! j = Some (InFlight payload) →
            ∃ σ', step post h records_list qry σ σ') as Hanswer.
  { intros j payload Hj. destruct (Hrec j _ Hj) as [l Hl].
    eexists. by eapply step_answer. }
  destruct p as [|payload|payload|r].
  - destruct (Hrec i _ Hi) as [l Hl].
    destruct (request_payload (h l)) as [e|payload] eqn:Hpay.
    + eexists. by eapply step_start_raise.
    + eexists. by eapply step_start.
  - destruct (decide (0 < sem_value σ)%Z) as [Hpos|Hnpos].
    + eexists. by eapply step_acquire.
    + destruct (in_flight_pos (tasks σ)) as (j & payload' & Hj); [lia|].
      by eapply Hanswer.
  - by eapply Hanswer.
  - by destruct (Hp r).
Qed.

Lemma reachable_no_deadlock_witness :
  ∃ σ', step (λ _ _ _, Examples.refuse) Examples.store [0; 1]%nat "mystery"
          Examples.one_slot_taken σ'.
Proof.
  apply (reachable_no_deadlock (λ _ _ _, Examples.refuse) Examples.store
           [0; 1]%nat "mystery" 1 Examples.one_slot_taken 1%nat
           (Waiting (Examples.payload_of 1))).
  - reflexivity.
  - apply (steps_reachable _ _ _ _ _ 3).
    apply (steps_S _ _ _ _ 2
             (MkState 1 [Created; Created] [])
             (MkState 1 [Waiting (Examples.payload_of 0);
                         Waiting (Examples.payload_of 1)] [])).
    + apply (steps_S _ _ _ _ 1
               (MkState 1 [Created; Created] [])
               (MkState 1 [Waiting (Examples.payload_of 0); Created] [])).
      * apply (steps_S _ _ _ _ 0
                 (MkState 1 [Created; Created] [])
                 (MkState 1 [Created; Created] [])).
        -- apply steps_O.
        -- apply (step_start _ _ _ _ (MkState 1 [Created; Created] [])
                    0%nat 0%nat (Examples.payload_of 0)); reflexivity.
      * apply (step_start _ _ _ _
                 (MkState 1 [Waiting (Examples.payload_of 0); Created] [])
                 1%nat 1%nat (Examples.payload_of 1)); reflexivity.
    + apply (step_acquire _ _ _ _
               (MkState 1 [Waiting (Examples.payload_of 0);
                           Waiting (Examples.payload_of 1)] [])
               0%nat (Examples.payload_of 0)); [reflexivity|simpl; lia].
  - reflexivity.
  - discriminate.
Defined.

End EventLoopProgress.
